(** * Pair coverage tracking and selection

    A verification development for
    [find_paired_rnaseq_transcripts_by_read_alignment.py]: the interval
    list kept per transcript pair ([add_read_coverage]) and the body of
    the loop of [main] that filters, deduplicates and selects pairs. *)

From Stdlib Require Import ZArith Ascii String List Lia Bool Sorted.
From stdpp Require Import base option list gmap strings.

Local Open Scope string_scope.
Local Open Scope list_scope.
Local Open Scope Z_scope.

(** ** The coverage tracker *)

Module Tracker.

(** An entry of an interval list: [(read_count, rstart, rend)]. *)
Definition interval : Type := Z * Z * Z.

(** [sorted([a, b])] on two integers: the pair is reversed only when the
    second is strictly smaller than the first. *)
Definition sorted2 (a b : Z) : list Z :=
  if b <? a then [b; a] else [a; b].

(** [interval_list.insert(i, x)] for an index [i >= 0]. *)
Definition list_insert_at {A} (i : nat) (x : A) (l : list A) : list A :=
  take i l ++ x :: drop i l.

(** The body of [for i in range(0, ill)], lines 120-140, run over the
    indices still to visit. The state is the (mutated) interval list and
    the flag [insert_done]; [None] stands for an exception raised by an
    indexing expression. *)
Fixpoint scan (idxs : list nat) (rs re : Z)
    (interval_list : list interval) (insert_done : bool)
    : option (list interval * bool) :=
  match idxs with
  | [] => Some (interval_list, insert_done)
  | i :: rest =>
      match interval_list !! i with
      | None => None
      | Some (n_reads, istart, iend) =>
          if re <? istart then
            Some (list_insert_at i (1, rs, re) interval_list, true)
          else if rs >? iend then
            scan rest rs re interval_list insert_done
          else
            let starts := sorted2 rs istart in
            let ends := sorted2 re iend in
            match starts !! 0%nat, ends !! 1%nat with
            | Some s0, Some e1 =>
                scan rest rs re
                  (<[i := (1 + n_reads, s0, e1)]> interval_list) true
            | _, _ => None
            end
      end
  end.

(** Lines 149-155: the re-scan that sums read counts and lengths. *)
Definition totals (interval_list : list interval) : Z * Z :=
  fold_left
    (fun (acc : Z * Z) (il : interval) =>
       let '(n_reads, covered_bp) := acc in
       let '(nr, istart, iend) := il in
       (n_reads + nr, covered_bp + (iend - istart + 1)))
    interval_list (0, 0).

(** [add_read_coverage(pdict, key, rs, re)]. The dictionary is mutated in
    place by the source, so the new dictionary is returned next to the
    result [(n_reads, covered_bp)]. *)
Definition add_read_coverage (pdict : gmap string (list interval))
    (key : string) (rs re : Z)
    : option (gmap string (list interval) * (Z * Z)) :=
  match pdict !! key with
  | None =>
      let total_bp := re - rs + 1 in
      Some (<[key := [(1, rs, re)]]> pdict, (1, total_bp))
  | Some interval_list =>
      let ill := length interval_list in
      match scan (seq 0 ill) rs re interval_list false with
      | None => None
      | Some (interval_list, insert_done) =>
          let interval_list :=
            if insert_done then interval_list
            else interval_list ++ [(1, rs, re)] in
          Some (<[key := interval_list]> pdict, totals interval_list)
      end
  end.

(** A run of calls on one key, collecting what each call returns. *)
Fixpoint fold_calls (pdict : gmap string (list interval)) (key : string)
    (spans : list (Z * Z))
    : option (gmap string (list interval) * list (Z * Z)) :=
  match spans with
  | [] => Some (pdict, [])
  | (rs, re) :: rest =>
      match add_read_coverage pdict key rs re with
      | None => None
      | Some (pdict', rc) =>
          match fold_calls pdict' key rest with
          | None => None
          | Some (pdict'', rcs) => Some (pdict'', rc :: rcs)
          end
      end
  end.

(** *** The algorithm in the words of the specification *)

(** One pass over the list: insert before the first interval that starts
    after the span and stop; skip an interval that ends before the span;
    otherwise widen the interval in place and go on. [inserted] records
    whether some interval was merged so far; the span is appended when the
    pass ends with nothing inserted or merged. *)
Fixpoint spec_scan (rs re : Z) (l : list interval) (inserted : bool)
    : list interval :=
  match l with
  | [] => if inserted then [] else [(1, rs, re)]
  | (n, istart, iend) :: tl =>
      if re <? istart then (1, rs, re) :: (n, istart, iend) :: tl
      else if iend <? rs then (n, istart, iend) :: spec_scan rs re tl inserted
      else (n + 1, Z.min rs istart, Z.max re iend) :: spec_scan rs re tl true
  end.

Definition sum_reads (l : list interval) : Z :=
  foldr Z.add 0 (map (fun il : interval => il.1.1) l).

Definition sum_bp (l : list interval) : Z :=
  foldr Z.add 0 (map (fun il : interval => il.2 - il.1.2 + 1) l).

End Tracker.

(** ** The loop of [main] *)

Module Driver.

Import Tracker.

(** *** Read names *)

Definition newline : ascii := "010"%char.

(** [t] is matched by [sep[12]$]: the separator, a digit 1 or 2, and the
    end of the string, which [$] also accepts just before a final
    newline. *)
Definition mate_suffix (sep t : string) : bool :=
  existsb (String.eqb t)
    [sep +:+ "1"; sep +:+ "2";
     sep +:+ String "1" (String newline ""); sep +:+ String "2" (String newline "")].

(** Group 1 of [re.match("(.+)" + sep + "[12]$", s)]: [.] takes any
    character but a newline, [+] needs one character at least and is
    greedy, so the longer group is tried first. *)
Fixpoint match_group (sep s : string) : option string :=
  match s with
  | EmptyString => None
  | String c rest =>
      if Ascii.eqb c newline then None
      else
        match match_group sep rest with
        | Some g => Some (String c g)
        | None => if mate_suffix sep rest then Some (String c "") else None
        end
  end.

(** The identifier holds no newline, as a column of one line does. *)
Fixpoint no_newline (s : string) : bool :=
  match s with
  | EmptyString => true
  | String c rest => negb (Ascii.eqb c newline) && no_newline rest
  end.

(** Lines 237-245: [ref_read_name]. *)
Definition read_name (ref_read : string) : string :=
  match match_group "__" ref_read with
  | Some g => g
  | None =>
      match match_group "/" ref_read with
      | Some g => g
      | None => ref_read
      end
  end.

(** *** Reference length of a CIGAR string *)

Definition digit_value (c : ascii) : option Z :=
  let n := Z.of_N (N_of_ascii c) in
  if (48 <=? n) && (n <=? 57) then Some (n - 48) else None.

Definition ref_op (c : ascii) : bool :=
  existsb (Ascii.eqb c) ["M"; "="; "X"; "D"; "N"]%char.

(** Lines 253-255: the sum of [int(m.group(1))] over
    [re.finditer("(\d+)[M=XDN]", cigar)]. A match is a maximal run of
    digits followed at once by one of the five letters; [run] is the value
    of the digits read since the last character that was not a digit.
    Digits are the ASCII ones, as in a CIGAR string, and [int] is taken
    on runs of digits that it reads, within its limit on their number. *)
Fixpoint cigar_scan (cigar : string) (run : option Z) (rlen : Z) : Z :=
  match cigar with
  | EmptyString => rlen
  | String c rest =>
      match digit_value c with
      | Some d => cigar_scan rest (Some (10 * default 0 run + d)) rlen
      | None =>
          match run with
          | Some v =>
              if ref_op c then cigar_scan rest None (rlen + v)
              else cigar_scan rest None rlen
          | None => cigar_scan rest None rlen
          end
      end
  end.

Definition cigar_rlen (cigar : string) : Z := cigar_scan cigar None 0.

(** *** Keys *)

(** [sorted([a, b])] on two strings. *)
Definition sorted2s (a b : string) : list string :=
  if String.ltb b a then [b; a] else [a; b].

(** Lines 225-226: [transcripts[0] + ":" + transcripts[1]]. *)
Definition pair_key (ref_transcript other_transcript : string)
    : option string :=
  let transcripts := sorted2s ref_transcript other_transcript in
  match transcripts !! 0%nat, transcripts !! 1%nat with
  | Some t0, Some t1 => Some (t0 +:+ ":" +:+ t1)
  | _, _ => None
  end.

(** Line 264: [key + ":" + ref_read_name]. *)
Definition read_key (key ref_read_name : string) : string :=
  key +:+ ":" +:+ ref_read_name.

(** *** State and loop body *)

(** The columns of a line that is not a header, as the loop reads them:
    [cols[0]], [cols[2]], [int(cols[3])], [cols[5]] and [cols[6]]. *)
Record sam_line := SamLine {
  ref_read : string;
  ref_transcript : string;
  pos : Z;
  cigar : string;
  other_transcript : string
}.

Record args := Args {
  min_bp_coverage : Z;
  min_mate_pair_count : Z
}.

(** The variables of [main] that the loop updates, and the lines printed
    on standard output. The two dictionaries that only ever hold [True]
    are sets. The progress lines written to standard error are left out. *)
Record state := State {
  pairings : gmap string (list interval);
  single_read_pairings : Z;
  same_read_pairings : Z;
  selected_pairings : gset string;
  n_selected_pairings : Z;
  n_lines_ignored : Z;
  n_lines : Z;
  reads_used : gset string;
  n_reads_already_used : Z;
  stdout : list string
}.

Definition initial : state :=
  State ∅ 0 0 ∅ 0 0 0 ∅ 0 [].

(** Lines 274-283: what follows the call of [add_read_coverage]. [st] is
    the state with the updated [pairings]. *)
Definition select (a : args) (st : state) (key rkey : string)
    (n_reads covered_bp : Z) : state :=
  if (min_mate_pair_count a <=? n_reads) && (min_bp_coverage a <=? covered_bp)
  then
    State (delete key (pairings st))
      (single_read_pairings st) (same_read_pairings st)
      ({[key]} ∪ selected_pairings st) (n_selected_pairings st + 1)
      (n_lines_ignored st) (n_lines st)
      (reads_used st) (n_reads_already_used st)
      (stdout st ++ [key])
  else
    State (pairings st)
      (single_read_pairings st) (same_read_pairings st)
      (selected_pairings st) (n_selected_pairings st)
      (n_lines_ignored st) (n_lines st)
      ({[rkey]} ∪ reads_used st) (n_reads_already_used st)
      (stdout st).

(** Lines 204-283: the body of [for line in fh] on one line. [None] is an
    exception. *)
Definition body (a : args) (st : state) (line : sam_line) : option state :=
  let n_lines := n_lines st + 1 in
  if String.eqb (other_transcript line) "*" then
    Some (State (pairings st)
      (single_read_pairings st + 1) (same_read_pairings st)
      (selected_pairings st) (n_selected_pairings st)
      (n_lines_ignored st) n_lines
      (reads_used st) (n_reads_already_used st) (stdout st))
  else if String.eqb (other_transcript line) "=" then
    Some (State (pairings st)
      (single_read_pairings st) (same_read_pairings st + 1)
      (selected_pairings st) (n_selected_pairings st)
      (n_lines_ignored st) n_lines
      (reads_used st) (n_reads_already_used st) (stdout st))
  else
    match pair_key (ref_transcript line) (other_transcript line) with
    | None => None
    | Some key =>
        if decide (key ∈ selected_pairings st) then
          Some (State (pairings st)
            (single_read_pairings st) (same_read_pairings st)
            (selected_pairings st) (n_selected_pairings st)
            (n_lines_ignored st + 1) n_lines
            (reads_used st) (n_reads_already_used st) (stdout st))
        else
          let ref_read_name := read_name (ref_read line) in
          let rstart := pos line in
          let rlen := cigar_rlen (cigar line) in
          let rend := rstart + rlen - 1 in
          let rkey := read_key key ref_read_name in
          if decide (rkey ∈ reads_used st) then
            Some (State (pairings st)
              (single_read_pairings st) (same_read_pairings st)
              (selected_pairings st) (n_selected_pairings st)
              (n_lines_ignored st) n_lines
              (reads_used st) (n_reads_already_used st + 1) (stdout st))
          else
            match add_read_coverage (pairings st) key rstart rend with
            | None => None
            | Some (pairings', (n_reads, covered_bp)) =>
                let st' :=
                  State pairings'
                    (single_read_pairings st) (same_read_pairings st)
                    (selected_pairings st) (n_selected_pairings st)
                    (n_lines_ignored st) n_lines
                    (reads_used st) (n_reads_already_used st) (stdout st) in
                Some (select a st' key rkey n_reads covered_bp)
            end
    end.

(** The loop over the lines of the input. *)
Fixpoint loop (a : args) (st : state) (lines : list sam_line)
    : option state :=
  match lines with
  | [] => Some st
  | line :: rest =>
      match body a st line with
      | None => None
      | Some st' => loop a st' rest
      end
  end.

(** *** Vocabulary for the statements *)

(** The line names a mate on another transcript, and [key] is the key that
    line 226 builds for it. *)
Definition links (line : sam_line) (key : string) : Prop :=
  String.eqb (other_transcript line) "*" = false
  ∧ String.eqb (other_transcript line) "=" = false
  ∧ pair_key (ref_transcript line) (other_transcript line) = Some key.

(** One of the two tests of lines 229 and 265 stops a read called [name]
    on the pair [key]. *)
Definition blocked (st : state) (key name : string) : Prop :=
  key ∈ selected_pairings st ∨ read_key key name ∈ reads_used st.

(** The line left the dictionaries, the sets and the output as they were:
    only counters moved. *)
Definition discarded (st st' : state) : Prop :=
  pairings st' = pairings st
  ∧ selected_pairings st' = selected_pairings st
  ∧ reads_used st' = reads_used st
  ∧ stdout st' = stdout st.

(** The line reached [add_read_coverage] with its span, and [st'] is what
    lines 270-283 make of the result. *)
Definition folded (a : args) (st : state) (line : sam_line) (st' : state)
    : Prop :=
  ∃ key pairings' n_reads covered_bp,
    pair_key (ref_transcript line) (other_transcript line) = Some key
    ∧ add_read_coverage (pairings st) key (pos line)
        (pos line + cigar_rlen (cigar line) - 1)
      = Some (pairings', (n_reads, covered_bp))
    ∧ st' = select a
              (State pairings'
                 (single_read_pairings st) (same_read_pairings st)
                 (selected_pairings st) (n_selected_pairings st)
                 (n_lines_ignored st) (n_lines st + 1)
                 (reads_used st) (n_reads_already_used st) (stdout st))
              key (read_key key (read_name (ref_read line)))
              n_reads covered_bp.

(** Every printed key is printed once, the printed keys are the selected
    ones, and no selected key has an interval list. *)
Definition consistent (st : state) : Prop :=
  NoDup (stdout st)
  ∧ (∀ k, k ∈ stdout st ↔ k ∈ selected_pairings st)
  ∧ (∀ k, k ∈ selected_pairings st → pairings st !! k = None).

End Driver.

(** ** Shapes of interval lists *)

Module Shape.

Import Tracker.

(** Each interval has [istart <= iend] and a read count of 1 at least, the
    first interval starts at [lb] or later and each next one starts where
    the one before it starts or later: the list is sorted by ascending
    start coordinate. *)
Fixpoint sorted_from (lb : Z) (l : list interval) : Prop :=
  match l with
  | [] => True
  | (n, istart, iend) :: tl =>
      lb ≤ istart ∧ istart ≤ iend ∧ 1 ≤ n ∧ sorted_from istart tl
  end.

(** Each interval has [istart <= iend], the first interval starts after
    [lb] and each next one starts after the one before it ends: the list
    is sorted and no two intervals overlap. *)
Fixpoint separated_from (lb : Z) (l : list interval) : Prop :=
  match l with
  | [] => True
  | (n, istart, iend) :: tl =>
      lb < istart ∧ istart ≤ iend ∧ separated_from iend tl
  end.

(** The position [x] lies in one of the intervals. *)
Definition covers (l : list interval) (x : Z) : Prop :=
  Exists (fun il : interval => il.1.2 ≤ x ≤ il.2) l.

End Shape.

(** ** Raw lines *)

Module Lines.

Import Tracker Driver.

Definition tab : ascii := "009"%char.

(** [line.split("\t")]: the pieces between the tabs, empty ones too. *)
Fixpoint split_tab (line : string) : list string :=
  match line with
  | EmptyString => [""]
  | String c rest =>
      if Ascii.eqb c tab then "" :: split_tab rest
      else
        match split_tab rest with
        | col :: cols => String c col :: cols
        | [] => [String c ""]
        end
  end.

(** ["\t".join(cols)]. *)
Fixpoint join_tab (cols : list string) : string :=
  match cols with
  | [] => ""
  | col :: rest =>
      match rest with
      | [] => col
      | _ :: _ => col +:+ String tab (join_tab rest)
      end
  end.

Fixpoint count_tabs (line : string) : nat :=
  match line with
  | EmptyString => 0
  | String c rest => (if Ascii.eqb c tab then 1 else 0) + count_tabs rest
  end.

(** Lines 200-283 on a line of text. [int] stands for Python's [int] on a
    string, [None] where it raises; an index that is out of range raises
    too. The header test reads [line[0]]. *)
Definition raw_body (int : string → option Z) (a : args) (st : state)
    (line : string) : option state :=
  match line with
  | EmptyString => None
  | String c0 _ =>
      if Ascii.eqb c0 "@" then Some st
      else
        let n_lines := n_lines st + 1 in
        let cols := split_tab line in
        match cols !! 0%nat with
        | None => None
        | Some ref_read =>
        match cols !! 2%nat with
        | None => None
        | Some ref_transcript =>
        match cols !! 6%nat with
        | None => None
        | Some other_transcript =>
            if String.eqb other_transcript "*" then
              Some (State (pairings st)
                (single_read_pairings st + 1) (same_read_pairings st)
                (selected_pairings st) (n_selected_pairings st)
                (n_lines_ignored st) n_lines
                (reads_used st) (n_reads_already_used st) (stdout st))
            else if String.eqb other_transcript "=" then
              Some (State (pairings st)
                (single_read_pairings st) (same_read_pairings st + 1)
                (selected_pairings st) (n_selected_pairings st)
                (n_lines_ignored st) n_lines
                (reads_used st) (n_reads_already_used st) (stdout st))
            else
              match pair_key ref_transcript other_transcript with
              | None => None
              | Some key =>
                  if decide (key ∈ selected_pairings st) then
                    Some (State (pairings st)
                      (single_read_pairings st) (same_read_pairings st)
                      (selected_pairings st) (n_selected_pairings st)
                      (n_lines_ignored st + 1) n_lines
                      (reads_used st) (n_reads_already_used st) (stdout st))
                  else
                    let ref_read_name := read_name ref_read in
                    match cols !! 3%nat with
                    | None => None
                    | Some col3 =>
                    match cols !! 5%nat with
                    | None => None
                    | Some cigar =>
                    match int col3 with
                    | None => None
                    | Some rstart =>
                        let rlen := cigar_rlen cigar in
                        let rend := rstart + rlen - 1 in
                        let rkey := read_key key ref_read_name in
                        if decide (rkey ∈ reads_used st) then
                          Some (State (pairings st)
                            (single_read_pairings st) (same_read_pairings st)
                            (selected_pairings st) (n_selected_pairings st)
                            (n_lines_ignored st) n_lines
                            (reads_used st) (n_reads_already_used st + 1)
                            (stdout st))
                        else
                          match
                            add_read_coverage (pairings st) key rstart rend
                          with
                          | None => None
                          | Some (pairings', (n_reads, covered_bp)) =>
                              let st' :=
                                State pairings'
                                  (single_read_pairings st)
                                  (same_read_pairings st)
                                  (selected_pairings st)
                                  (n_selected_pairings st)
                                  (n_lines_ignored st) n_lines
                                  (reads_used st) (n_reads_already_used st)
                                  (stdout st) in
                              Some (select a st' key rkey n_reads covered_bp)
                          end
                    end
                    end
                    end
              end
        end
        end
        end
  end.

Fixpoint raw_loop (int : string → option Z) (a : args) (st : state)
    (lines : list string) : option state :=
  match lines with
  | [] => Some st
  | line :: rest =>
      match raw_body int a st line with
      | None => None
      | Some st' => raw_loop int a st' rest
      end
  end.

(** *** Vocabulary for the statements *)

Definition header (line : string) : bool :=
  match line with
  | EmptyString => false
  | String c0 _ => Ascii.eqb c0 "@"
  end.

(** The columns that the loop reads from a line that is no header, all
    read at once: [None] when a column is missing or [int] raises. *)
Definition decode (int : string → option Z) (line : string)
    : option sam_line :=
  let cols := split_tab line in
  match cols !! 0%nat, cols !! 2%nat, cols !! 3%nat, cols !! 5%nat,
        cols !! 6%nat with
  | Some ref_read, Some ref_transcript, Some col3, Some cigar,
    Some other_transcript =>
      match int col3 with
      | Some rstart =>
          Some (SamLine ref_read ref_transcript rstart cigar other_transcript)
      | None => None
      end
  | _, _, _, _, _ => None
  end.

(** The mate is on another transcript. *)
Definition mate_ok (line : sam_line) : bool :=
  negb (String.eqb (other_transcript line) "*")
  && negb (String.eqb (other_transcript line) "=").

(** What the selection works on: all of the state but the counters. *)
Definition core (st : state)
    : gmap string (list interval) * gset string * gset string * list string :=
  (pairings st, selected_pairings st, reads_used st, stdout st).

Fixpoint colon_free (s : string) : bool :=
  match s with
  | EmptyString => true
  | String c rest => negb (Ascii.eqb c ":") && colon_free rest
  end.

(** *** CIGAR strings written from their operations *)

Definition digit_char (d : Z) : ascii := ascii_of_N (Z.to_N (48 + d)).

Definition digits_string (ds : list Z) : string :=
  string_of_list_ascii (map digit_char ds).

(** The number that the decimal digits [ds] write. *)
Definition digits_value (ds : list Z) : Z :=
  fold_left (fun acc d => 10 * acc + d) ds 0.

(** An operation is the digits of its length and its letter. *)
Fixpoint cigar_string (ops : list (list Z * ascii)) : string :=
  match ops with
  | [] => ""
  | (ds, op) :: rest => digits_string ds +:+ String op (cigar_string rest)
  end.

(** The lengths of the operations that advance on the reference. *)
Fixpoint ref_length (ops : list (list Z * ascii)) : Z :=
  match ops with
  | [] => 0
  | (ds, op) :: rest =>
      (if ref_op op then digits_value ds else 0) + ref_length rest
  end.

End Lines.

(** ** What a line adds to its pair *)

Module Contribution.

Import Tracker Driver.


End Contribution.

(** * Properties of the tracker *)

Section TrackerFacts.

Import Tracker.

Implicit Types (l pre tl : list interval) (rs re : Z) (done : bool).

Lemma sorted2_0 a b : sorted2 a b !! 0%nat = Some (Z.min a b).
Proof. unfold sorted2. destruct (Z.ltb_spec b a); simpl; f_equal; lia. Qed.

Lemma sorted2_1 a b : sorted2 a b !! 1%nat = Some (Z.max a b).
Proof. unfold sorted2. destruct (Z.ltb_spec b a); simpl; f_equal; lia. Qed.

Lemma list_insert_at_middle {A} (x : A) (pre tl : list A) :
  list_insert_at (length pre) x (pre ++ tl) = pre ++ x :: tl.
Proof.
  unfold list_insert_at. by rewrite take_app_length, drop_app_length.
Qed.

(** The loop over the indices that remain, on a list whose visited part
    is [pre], does what the pass of the specification does on the rest. *)
Lemma scan_spec_scan tl : ∀ pre rs re done,
  ∃ l' done',
    scan (seq (length pre) (length tl)) rs re (pre ++ tl) done
      = Some (l', done')
    ∧ (if done' then l' else l' ++ [(1, rs, re)])
      = pre ++ spec_scan rs re tl done.
Proof.
  induction tl as [|[[n istart] iend] tl IH]; intros pre rs re done.
  - exists pre, done. rewrite app_nil_r. simpl. split; [done|].
    destruct done; [by rewrite app_nil_r | done].
  - cbn [length seq scan spec_scan].
    rewrite list_lookup_middle by done.
    destruct (re <? istart) eqn:Hbefore.
    { eexists _, true. split; [done|]. by rewrite list_insert_at_middle. }
    rewrite Z.gtb_ltb.
    assert (Hnext : ∀ (it : interval) b,
              ∃ l' done',
                scan (seq (S (length pre)) (length tl)) rs re
                  (pre ++ it :: tl) b = Some (l', done')
                ∧ (if done' then l' else l' ++ [(1, rs, re)])
                  = pre ++ it :: spec_scan rs re tl b).
    { intros it b. specialize (IH (pre ++ [it]) rs re b).
      rewrite <- !app_assoc, length_app, Nat.add_1_r in IH. exact IH. }
    destruct (iend <? rs) eqn:Hafter; [apply Hnext|].
    rewrite sorted2_0, sorted2_1.
    rewrite insert_app_r_alt, Nat.sub_diag by done. simpl.
    rewrite (Z.add_comm 1 n). apply Hnext.
Qed.

Lemma totals_from l : ∀ n bp,
  fold_left
    (fun (acc : Z * Z) (il : interval) =>
       let '(n_reads, covered_bp) := acc in
       let '(nr, istart, iend) := il in
       (n_reads + nr, covered_bp + (iend - istart + 1)))
    l (n, bp)
  = (n + sum_reads l, bp + sum_bp l).
Proof.
  induction l as [|[[nr istart] iend] l IH]; intros n bp; simpl.
  - unfold sum_reads, sum_bp. simpl. f_equal; lia.
  - rewrite IH. unfold sum_reads, sum_bp. simpl. f_equal; lia.
Qed.

Lemma totals_sums l : totals l = (sum_reads l, sum_bp l).
Proof. unfold totals. by rewrite totals_from. Qed.

(** [add_read_coverage] on a key that is present. *)
Lemma add_read_coverage_present (pdict : gmap string (list interval))
    key l rs re :
  pdict !! key = Some l →
  add_read_coverage pdict key rs re
  = Some (<[key := spec_scan rs re l false]> pdict,
          (sum_reads (spec_scan rs re l false),
           sum_bp (spec_scan rs re l false))).
Proof.
  intros Hl. unfold add_read_coverage. rewrite Hl.
  destruct (scan_spec_scan l [] rs re false) as (l' & done' & Hscan & Hl').
  simpl in Hscan, Hl'. rewrite Hscan, Hl'. by rewrite totals_sums.
Qed.

Lemma add_read_coverage_absent (pdict : gmap string (list interval))
    key rs re :
  pdict !! key = None →
  add_read_coverage pdict key rs re
  = Some (<[key := [(1, rs, re)]]> pdict, (1, re - rs + 1)).
Proof. intros Hl. unfold add_read_coverage. by rewrite Hl. Qed.

(** The call never raises, and leaves a list under the key whose sums it
    returns. *)
Lemma add_read_coverage_some (pdict : gmap string (list interval))
    key rs re :
  ∃ pdict' l',
    add_read_coverage pdict key rs re
      = Some (pdict', (sum_reads l', sum_bp l'))
    ∧ pdict' !! key = Some l'
    ∧ ∀ k, k ≠ key → pdict' !! k = pdict !! k.
Proof.
  destruct (pdict !! key) as [l|] eqn:Hl.
  - eexists _, _. rewrite (add_read_coverage_present _ _ _ _ _ Hl).
    split; [done|]. split; [by rewrite lookup_insert_eq|].
    intros k Hk. by rewrite lookup_insert_ne.
  - exists (<[key := [(1, rs, re)]]> pdict), [(1, rs, re)].
    rewrite (add_read_coverage_absent _ _ _ _ Hl).
    split; [unfold sum_reads, sum_bp; simpl; do 3 f_equal; lia|].
    split; [by rewrite lookup_insert_eq|].
    intros k Hk. by rewrite lookup_insert_ne.
Qed.

(** Widening never shrinks an interval, so the covered length only grows
    when the span itself has a length that is not negative. *)
Lemma spec_scan_bp_mono rs re l : ∀ done,
  rs - 1 ≤ re → sum_bp l ≤ sum_bp (spec_scan rs re l done).
Proof.
  induction l as [|[[n istart] iend] l IH]; intros done Hlen.
  - destruct done; unfold sum_bp; simpl; lia.
  - cbn [spec_scan].
    destruct (re <? istart); [unfold sum_bp; simpl; lia|].
    destruct (iend <? rs).
    + specialize (IH done Hlen). unfold sum_bp in *. simpl in *. lia.
    + specialize (IH true Hlen). unfold sum_bp in *. simpl in *. lia.
Qed.

(** A span with [re < rs] widens nothing: it either sits in the list as
    an interval of its own or leaves the covered length as it was. *)
Lemma spec_scan_degenerate rs re l : ∀ done,
  re < rs →
  (length (spec_scan rs re l done) = S (length l)
   ∧ sum_bp (spec_scan rs re l done) = sum_bp l + (re - rs + 1))
  ∨ (length (spec_scan rs re l done) = length l
     ∧ sum_bp (spec_scan rs re l done) = sum_bp l).
Proof.
  induction l as [|[[n istart] iend] l IH]; intros done Hdeg.
  - destruct done; [right|left]; unfold sum_bp; simpl; split; (done || lia).
  - cbn [spec_scan].
    destruct (Z.ltb_spec re istart) as [Hb|Hb].
    { left. unfold sum_bp. simpl. split; [done|lia]. }
    destruct (Z.ltb_spec iend rs) as [Ha|Ha].
    + destruct (IH done Hdeg) as [[Hn Hbp]|[Hn Hbp]]; [left|right];
        unfold sum_bp in *; simpl in *; split; lia.
    + replace (Z.min rs istart) with istart by lia.
      replace (Z.max re iend) with iend by lia.
      destruct (IH true Hdeg) as [[Hn Hbp]|[Hn Hbp]]; [left|right];
        unfold sum_bp in *; simpl in *; split; lia.
Qed.

Lemma fold_calls_mono key spans : ∀ pdict : gmap string (list interval),
  Forall (fun span : Z * Z => span.1 - 1 ≤ span.2) spans →
  ∃ pdict' rcs,
    fold_calls pdict key spans = Some (pdict', rcs)
    ∧ length rcs = length spans
    ∧ Sorted Z.le rcs.*2
    ∧ ∀ l, pdict !! key = Some l → HdRel Z.le (sum_bp l) rcs.*2.
Proof.
  induction spans as [|[rs re] spans IH]; intros pdict Hok.
  - exists pdict, []. simpl. repeat split; constructor.
  - apply Forall_cons in Hok as [Hspan Hok]. simpl in Hspan. cbn [fold_calls].
    destruct (add_read_coverage_some pdict key rs re)
      as (pdict' & l' & Hcall & Hl' & _).
    destruct (IH pdict' Hok) as (pdict'' & rcs & Hrest & Hlen & Hsorted & Hhd).
    rewrite Hcall, Hrest. eexists _, _. split; [done|].
    split; [simpl; by rewrite Hlen|].
    split; [simpl; constructor; [done|by apply Hhd]|].
    intros l Hl. simpl. constructor.
    rewrite (add_read_coverage_present _ _ _ _ _ Hl) in Hcall.
    injection Hcall as _ _ <-. by apply spec_scan_bp_mono.
Qed.

End TrackerFacts.

(** * The claims on the tracker *)

Section TrackerClaims.

Import Tracker.

(** C1. A call on a key whose interval list exists scans the list in
    ascending order: it inserts [(1, rs, re)] before the first interval
    with [re < istart] and stops; leaves an interval with [rs > iend] as
    it is and goes on; replaces any other interval by
    [(n + 1, min rs istart, max re iend)] and goes on; and appends
    [(1, rs, re)] when the scan ends without an insert or a merge. The
    list stored under the key and the totals returned are those of this
    pass, [spec_scan]. *)
Theorem add_read_coverage_scan_cases
    (pdict : gmap string (list interval)) key l rs re :
  pdict !! key = Some l →
  add_read_coverage pdict key rs re
  = Some (<[key := spec_scan rs re l false]> pdict,
          (sum_reads (spec_scan rs re l false),
           sum_bp (spec_scan rs re l false))).
Proof. apply add_read_coverage_present. Qed.

Lemma add_read_coverage_scan_cases_witness :
  ({["A:B" := [(1, 10, 20); (1, 30, 40); (1, 50, 60)]]}
     : gmap string (list interval)) !! "A:B"
    = Some [(1, 10, 20); (1, 30, 40); (1, 50, 60)]
  ∧ add_read_coverage
      {["A:B" := [(1, 10, 20); (1, 30, 40); (1, 50, 60)]]} "A:B" 35 45
    = Some (<["A:B" := [(1, 10, 20); (2, 30, 45); (1, 35, 45); (1, 50, 60)]]>
              {["A:B" := [(1, 10, 20); (1, 30, 40); (1, 50, 60)]]},
            (5, 49)).
Proof.
  split; [reflexivity|].
  exact (add_read_coverage_scan_cases
           {["A:B" := [(1, 10, 20); (1, 30, 40); (1, 50, 60)]]} "A:B"
           [(1, 10, 20); (1, 30, 40); (1, 50, 60)] 35 45 eq_refl).
Defined.

(** C2. Every call returns the sum of the read counts and the sum of
    [rend - rstart + 1] over the list that the call leaves under the key.
    On a fresh key the span (10, 50) gives (1, 41); (10, 50) and then
    (40, 80) on one key make the second call return (2, 71). *)
Theorem add_read_coverage_returns_sums :
  (∀ (pdict : gmap string (list interval)) key rs re,
     ∃ pdict' l',
       add_read_coverage pdict key rs re
         = Some (pdict', (sum_reads l', sum_bp l'))
       ∧ pdict' !! key = Some l')
  ∧ add_read_coverage ∅ "A:B" 10 50
    = Some ({["A:B" := [(1, 10, 50)]]}, (1, 41))
  ∧ fold_calls ∅ "A:B" [(10, 50); (40, 80)]
    = Some ({["A:B" := [(2, 10, 80)]]}, [(1, 41); (2, 71)]).
Proof.
  split; [|split; vm_compute; reflexivity].
  intros pdict key rs re.
  destruct (add_read_coverage_some pdict key rs re) as (pdict' & l' & H & Hl & _).
  by exists pdict', l'.
Qed.

(** C9. Some runs of calls on one key return a read count above the
    number of calls: after (10, 20) and (30, 40), the span (15, 25) is
    merged into the first interval and also inserted before the second,
    and the third call returns the read count 4. *)
Theorem read_count_exceeds_calls :
  ∃ pdict',
    fold_calls ∅ "A:B" [(10, 20); (30, 40); (15, 25)]
      = Some (pdict', [(1, 11); (2, 22); (4, 38)])
    ∧ pdict' !! "A:B" = Some [(2, 10, 25); (1, 15, 25); (1, 30, 40)]
    ∧ Z.of_nat (length [(10, 20); (30, 40); (15, 25)]) < 4.
Proof.
  eexists. split; [vm_compute; reflexivity|]. split; [reflexivity|]. simpl. lia.
Qed.

(** C10. Over a run of calls on one key in which every span has
    [re >= rs - 1], the covered length returned never decreases from one
    call to the next. *)
Theorem covered_bp_nondecreasing
    (pdict : gmap string (list interval)) key spans :
  Forall (fun span : Z * Z => span.1 - 1 ≤ span.2) spans →
  ∃ pdict' rcs,
    fold_calls pdict key spans = Some (pdict', rcs)
    ∧ length rcs = length spans
    ∧ Sorted Z.le rcs.*2.
Proof.
  intros Hok.
  destruct (fold_calls_mono key spans pdict Hok)
    as (pdict' & rcs & H & Hlen & Hsorted & _).
  by exists pdict', rcs.
Qed.

Lemma covered_bp_nondecreasing_witness :
  Forall (fun span : Z * Z => span.1 - 1 ≤ span.2)
    [(10, 20); (30, 40); (15, 25); (5, 4)]
  ∧ ∃ pdict' rcs,
      fold_calls ∅ "A:B" [(10, 20); (30, 40); (15, 25); (5, 4)]
        = Some (pdict', rcs)
      ∧ length rcs = 4%nat
      ∧ Sorted Z.le rcs.*2.
Proof.
  assert (Hok : Forall (fun span : Z * Z => span.1 - 1 ≤ span.2)
                  [(10, 20); (30, 40); (15, 25); (5, 4)]).
  { repeat constructor; simpl; lia. }
  split; [exact Hok|].
  exact (covered_bp_nondecreasing ∅ "A:B" _ Hok).
Defined.

End TrackerClaims.

(** * Read names and keys *)

Section NameFacts.

Import Driver.

Lemma string_app_cons c (s t : string) : String c s +:+ t = String c (s +:+ t).
Proof. done. Qed.

Lemma string_app_assoc (s t u : string) : (s +:+ t) +:+ u = s +:+ t +:+ u.
Proof.
  induction s as [|c s IH]; [done|]. by rewrite !string_app_cons, IH.
Qed.

Lemma string_app_list (s t : string) :
  list_ascii_of_string (s +:+ t)
  = list_ascii_of_string s ++ list_ascii_of_string t.
Proof.
  induction s as [|c s IH]; [done|]. rewrite string_app_cons. cbn.
  by rewrite IH.
Qed.


Lemma string_rev_app (s t : string) :
  rev (list_ascii_of_string (s +:+ t))
  = rev (list_ascii_of_string t) ++ rev (list_ascii_of_string s).
Proof. by rewrite string_app_list, rev_app_distr. Qed.

Lemma no_newline_app (s t : string) :
  no_newline (s +:+ t) = no_newline s && no_newline t.
Proof.
  induction s as [|c s IH]; [done|]. rewrite string_app_cons. cbn.
  by rewrite IH, andb_assoc.
Qed.

Lemma mate_suffix_inv sep t :
  mate_suffix sep t = true →
  ∃ d nl, t = sep +:+ String d nl
          ∧ (d = "1" ∨ d = "2")%char ∧ (nl = "" ∨ nl = String newline "").
Proof.
  unfold mate_suffix. rewrite existsb_exists.
  intros (x & Hin & Heq). apply String.eqb_eq in Heq. subst x.
  simpl in Hin. destruct Hin as [<-|[<-|[<-|[<-|[]]]]]; eexists _, _; eauto.
Qed.

(** What a match returns is a prefix without a newline, not empty, and
    what follows it is the suffix. *)
Lemma match_group_sound sep s : ∀ g,
  match_group sep s = Some g →
  g ≠ "" ∧ no_newline g = true ∧ ∃ t, s = g +:+ t ∧ mate_suffix sep t = true.
Proof.
  induction s as [|c s IH]; intros g; [done|]. cbn [match_group].
  destruct (Ascii.eqb c newline) eqn:Hc; [done|].
  destruct (match_group sep s) as [g'|] eqn:Hg'.
  - intros [= <-]. destruct (IH g' eq_refl) as (_ & Hnl & t & -> & Ht).
    split; [done|]. split; [cbn; by rewrite Hc|]. by exists t.
  - destruct (mate_suffix sep s) eqn:Hs; [|done]. intros [= <-].
    split; [done|]. split; [cbn; by rewrite Hc|]. by exists s.
Qed.

(** The suffix alone is never matched: the group needs a character. *)
Lemma match_group_suffix sep t :
  sep = "__" ∨ sep = "/" →
  mate_suffix sep t = true → match_group sep t = None.
Proof.
  intros Hsep Ht.
  destruct (mate_suffix_inv _ _ Ht) as (d & nl & -> & Hd & Hnl).
  destruct Hsep as [->| ->], Hd as [->| ->], Hnl as [->| ->]; reflexivity.
Qed.

Lemma match_group_complete sep g t :
  sep = "__" ∨ sep = "/" →
  g ≠ "" → no_newline g = true → mate_suffix sep t = true →
  match_group sep (g +:+ t) = Some g.
Proof.
  intros Hsep Hg Hnl Ht. induction g as [|c g IH]; [done|].
  cbn in Hnl. apply andb_true_iff in Hnl as [Hc Hnl].
  apply negb_true_iff in Hc. rewrite string_app_cons. cbn [match_group].
  rewrite Hc. destruct g as [|c' g].
  - change ("" +:+ t) with t.
    by rewrite (match_group_suffix _ _ Hsep Ht), Ht.
  - by rewrite IH.
Qed.

(** A string that ends with "/1" or "/2" is not matched by the pattern
    with two underscores. *)
Lemma match_group_other_suffix (p : string) d :
  (d = "1" ∨ d = "2")%char →
  match_group "__" (p +:+ String "/" (String d "")) = None.
Proof.
  intros Hd.
  destruct (match_group "__" (p +:+ String "/" (String d ""))) as [g|] eqn:Hm;
    [|done].
  apply match_group_sound in Hm as (_ & _ & t & Heq & Ht).
  apply mate_suffix_inv in Ht as (d' & nl & -> & Hd' & Hnl).
  apply (f_equal (λ u, rev (list_ascii_of_string u))) in Heq.
  rewrite !string_rev_app in Heq.
  destruct Hd as [->| ->], Hd' as [->| ->], Hnl as [->| ->];
    simpl in Heq; discriminate.
Qed.

Lemma read_name_strip (p : string) d :
  p ≠ "" → no_newline p = true → (d = "1" ∨ d = "2")%char →
  read_name (p +:+ "__" +:+ String d "") = p
  ∧ read_name (p +:+ "/" +:+ String d "") = p.
Proof.
  intros Hp Hnl Hd. unfold read_name. split.
  - rewrite (match_group_complete "__" p); [done|by left|done|done|].
    destruct Hd as [->| ->]; reflexivity.
  - change ("/" +:+ String d "") with (String "/" (String d "")).
    rewrite match_group_other_suffix by done.
    rewrite (match_group_complete "/" p); [done|by right|done|done|].
    destruct Hd as [->| ->]; reflexivity.
Qed.

Lemma read_name_keep (s : string) :
  no_newline s = true →
  (∀ (p : string) d, p ≠ "" → (d = "1" ∨ d = "2")%char →
     s = p +:+ "__" +:+ String d "" ∨ s = p +:+ "/" +:+ String d "" → False) →
  read_name s = s.
Proof.
  intros Hnl Hno.
  assert (Hnone : ∀ sep, sep = "__" ∨ sep = "/" → match_group sep s = None).
  { intros sep Hsep. destruct (match_group sep s) as [g|] eqn:Hm; [|done].
    exfalso. apply match_group_sound in Hm as (Hg & _ & t & -> & Ht).
    apply mate_suffix_inv in Ht as (d & nl & -> & Hd & Hend).
    rewrite !no_newline_app in Hnl.
    destruct Hend as [->| ->].
    - apply (Hno g d Hg Hd). destruct Hsep as [->| ->]; [by left|by right].
    - apply andb_true_iff in Hnl as [_ Hnl].
      apply andb_true_iff in Hnl as [_ Hnl].
      destruct Hd as [->| ->]; discriminate. }
  unfold read_name. by rewrite !Hnone by auto.
Qed.

(** The reference length read from a CIGAR string is never negative, so
    the loop only folds spans with [rend >= rstart - 1]. *)
Lemma cigar_scan_nonneg (cigar : string) : ∀ run rlen,
  0 ≤ default 0 run → 0 ≤ rlen → 0 ≤ cigar_scan cigar run rlen.
Proof.
  induction cigar as [|c cigar IH]; intros run rlen Hrun Hrlen; [done|].
  cbn [cigar_scan]. destruct (digit_value c) as [d|] eqn:Hd.
  - apply IH; [|done]. simpl. unfold digit_value in Hd.
    destruct (_ && _) eqn:Hrange; [|done]. injection Hd as <-.
    apply andb_true_iff in Hrange as [?%Z.leb_le _]. lia.
  - destruct run as [v|]; [destruct (ref_op c)|]; apply IH; simpl in *; lia.
Qed.

Lemma cigar_rlen_nonneg (cigar : string) : 0 ≤ cigar_rlen cigar.
Proof. by apply cigar_scan_nonneg. Qed.

(** [sorted] puts the smaller name first, and does so for both orders of
    its arguments. *)
Lemma pair_key_ordered (A B : string) :
  pair_key A B
  = Some (if String.leb A B then A +:+ ":" +:+ B else B +:+ ":" +:+ A).
Proof.
  unfold pair_key, sorted2s, String.ltb, String.leb.
  rewrite (String.compare_antisym A B).
  destruct (String.compare B A); reflexivity.
Qed.

Lemma pair_key_comm (A B : string) : pair_key A B = pair_key B A.
Proof.
  rewrite !pair_key_ordered. unfold String.leb.
  rewrite (String.compare_antisym A B).
  destruct (String.compare B A) eqn:Hc; simpl; try done.
  by apply String.compare_eq_iff in Hc as ->.
Qed.



End NameFacts.

(** * The loop *)

Section LoopFacts.

Import Tracker Driver.

Implicit Types (a : args) (st : state) (line : sam_line) (key : string).

Lemma pair_key_some (A B : string) : ∃ key, pair_key A B = Some key.
Proof. rewrite pair_key_ordered. eauto. Qed.

(** The ways through the body of the loop. *)
Lemma body_view a st line :
  ∃ st', body a st line = Some st'
    ∧ ((discarded st st'
        ∧ ∀ key, links line key → blocked st key (read_name (ref_read line)))
       ∨ (folded a st line st'
          ∧ ∃ key, links line key
                   ∧ ¬ blocked st key (read_name (ref_read line)))).
Proof.
  unfold body.
  destruct (String.eqb (other_transcript line) "*") eqn:Hstar.
  { eexists. split; [done|]. left. split; [done|].
    intros key (H & _). congruence. }
  destruct (String.eqb (other_transcript line) "=") eqn:Hsame.
  { eexists. split; [done|]. left. split; [done|].
    intros key (_ & H & _). congruence. }
  destruct (pair_key_some (ref_transcript line) (other_transcript line))
    as [key Hkey].
  rewrite Hkey. destruct (decide (key ∈ selected_pairings st)) as [Hsel|Hsel].
  { eexists. split; [done|]. left. split; [done|].
    intros key' (_ & _ & H). left. congruence. }
  destruct (decide (read_key key (read_name (ref_read line)) ∈ reads_used st))
    as [Hused|Hused].
  { eexists. split; [done|]. left. split; [done|].
    intros key' (_ & _ & H). right. congruence. }
  destruct (add_read_coverage_some (pairings st) key (pos line)
              (pos line + cigar_rlen (cigar line) - 1))
    as (pairings' & l' & Hcall & _).
  rewrite Hcall. eexists. split; [done|]. right. split.
  - exists key, pairings', (sum_reads l'), (sum_bp l'). by rewrite Hkey.
  - exists key. split; [done|]. by intros [?|?].
Qed.

Lemma body_total a st line : ∃ st', body a st line = Some st'.
Proof. destruct (body_view a st line) as (st' & H & _). eauto. Qed.

Lemma loop_total a lines : ∀ st, ∃ st', loop a st lines = Some st'.
Proof.
  induction lines as [|line lines IH]; intros st; simpl; [eauto|].
  destruct (body_total a st line) as [st' ->]. apply IH.
Qed.

Lemma loop_app a lines1 lines2 st :
  loop a st (lines1 ++ lines2)
  = match loop a st lines1 with
    | Some st1 => loop a st1 lines2
    | None => None
    end.
Proof.
  revert st. induction lines1 as [|line lines1 IH]; intros st; simpl; [done|].
  destruct (body a st line); [apply IH|done].
Qed.

(** What a fold does to the dictionaries, the sets and the output. *)
Lemma folded_effect a st line st' key :
  folded a st line st' →
  pair_key (ref_transcript line) (other_transcript line) = Some key →
  ∃ pairings' n_reads covered_bp,
    add_read_coverage (pairings st) key (pos line)
      (pos line + cigar_rlen (cigar line) - 1)
    = Some (pairings', (n_reads, covered_bp))
    ∧ ((min_mate_pair_count a ≤ n_reads ∧ min_bp_coverage a ≤ covered_bp
        ∧ pairings st' = delete key pairings'
        ∧ selected_pairings st' = {[key]} ∪ selected_pairings st
        ∧ reads_used st' = reads_used st
        ∧ stdout st' = stdout st ++ [key])
       ∨ (¬ (min_mate_pair_count a ≤ n_reads
             ∧ min_bp_coverage a ≤ covered_bp)
          ∧ pairings st' = pairings'
          ∧ selected_pairings st' = selected_pairings st
          ∧ reads_used st'
            = {[read_key key (read_name (ref_read line))]} ∪ reads_used st
          ∧ stdout st' = stdout st)).
Proof.
  intros (key' & pairings' & n & bp & Hkey' & Hcall & ->) Hkey.
  assert (key' = key) as -> by congruence.
  exists pairings', n, bp. split; [done|]. unfold select.
  destruct (Z.leb_spec (min_mate_pair_count a) n),
           (Z.leb_spec (min_bp_coverage a) bp); simpl;
    [left; done | right; split; [lia|done] ..].
Qed.

(** The two sets only grow, and by the key or the read of the line at
    most. *)
Lemma body_sets a st line st' key :
  body a st line = Some st' →
  pair_key (ref_transcript line) (other_transcript line) = Some key →
  selected_pairings st ⊆ selected_pairings st'
  ∧ selected_pairings st' ⊆ {[key]} ∪ selected_pairings st
  ∧ reads_used st ⊆ reads_used st'
  ∧ reads_used st'
    ⊆ {[read_key key (read_name (ref_read line))]} ∪ reads_used st.
Proof.
  intros Hbody Hkey.
  destruct (body_view a st line) as (st'' & Hbody' & Hview).
  assert (st'' = st') as -> by congruence.
  destruct Hview as [[(_ & -> & -> & _) _]|[Hfold _]]; [set_solver|].
  destruct (folded_effect _ _ _ _ _ Hfold Hkey)
    as (? & ? & ? & _ & [(_ & _ & _ & -> & -> & _)|(_ & _ & -> & -> & _)]);
    set_solver.
Qed.




(** A blocked read is discarded. *)
Lemma body_blocked_discarded a st line st' key :
  body a st line = Some st' →
  pair_key (ref_transcript line) (other_transcript line) = Some key →
  blocked st key (read_name (ref_read line)) →
  discarded st st'.
Proof.
  intros Hbody Hkey Hb.
  destruct (body_view a st line) as (st'' & Hbody' & Hview).
  assert (st'' = st') as -> by congruence.
  destruct Hview as [[Hd _]|[_ (key' & (_ & _ & Hkey') & Hnb)]]; [done|].
  assert (key' = key) as -> by congruence. done.
Qed.

(** A read that is not blocked is folded. *)
Lemma body_free_folded a st line key :
  links line key → ¬ blocked st key (read_name (ref_read line)) →
  ∃ st', body a st line = Some st' ∧ folded a st line st'.
Proof.
  intros Hlinks Hnb.
  destruct (body_view a st line) as (st' & Hbody & Hview).
  exists st'. split; [done|].
  destruct Hview as [[_ Hb]|[Hfold _]]; [|done]. destruct Hnb. by apply Hb.
Qed.

Lemma initial_consistent : consistent initial.
Proof.
  split; [constructor|]. split; [|set_solver].
  intros k. simpl. set_solver.
Qed.

Lemma body_consistent a st line st' :
  body a st line = Some st' → consistent st → consistent st'.
Proof.
  intros Hbody (Hnd & Hout & Hnone).
  destruct (body_view a st line) as (st'' & Hbody' & Hview).
  assert (st'' = st') as -> by congruence.
  destruct Hview as [[(Hp & Hs & _ & Ho) _]|[Hfold (key & Hlinks & Hnb)]].
  { unfold consistent. by rewrite Hp, Hs, Ho. }
  destruct Hlinks as (_ & _ & Hkey).
  destruct (folded_effect _ _ _ _ _ Hfold Hkey)
    as (pairings' & n & bp & Hcall & Heff).
  destruct (add_read_coverage_some (pairings st) key (pos line)
              (pos line + cigar_rlen (cigar line) - 1))
    as (pairings'' & l' & Hcall' & _ & Hother).
  assert (pairings'' = pairings') as -> by congruence.
  assert (Hsel : key ∉ selected_pairings st) by (intros ?; apply Hnb; by left).
  unfold consistent.
  destruct Heff as [(_ & _ & -> & -> & _ & ->)|(_ & -> & -> & _ & ->)].
  - split; [|split].
    + apply NoDup_app. split; [done|]. split; [|apply NoDup_singleton].
      intros k Hk ->%list_elem_of_singleton. by apply Hsel, Hout.
    + intros k.
      rewrite elem_of_app, list_elem_of_singleton, Hout, elem_of_union,
        elem_of_singleton. tauto.
    + intros k Hk. destruct (decide (k = key)) as [->|Hne].
      * apply lookup_delete_eq.
      * rewrite lookup_delete_ne, Hother by done. apply Hnone.
        apply elem_of_union in Hk as [Hk|Hk]; [|done].
        by apply elem_of_singleton in Hk.
  - split; [done|]. split; [done|].
    intros k Hk. rewrite Hother; [by apply Hnone|]. by intros ->.
Qed.

Lemma loop_consistent a lines : ∀ st st',
  loop a st lines = Some st' → consistent st → consistent st'.
Proof.
  induction lines as [|line lines IH]; intros st st'; simpl.
  - by intros [= <-].
  - destruct (body a st line) as [st1|] eqn:Hbody; [|done].
    intros Hloop Hc. eapply IH; [done|]. by eapply body_consistent.
Qed.

Lemma loop_selected_mono a lines : ∀ st st',
  loop a st lines = Some st' →
  selected_pairings st ⊆ selected_pairings st'.
Proof.
  induction lines as [|line lines IH]; intros st st'; simpl.
  - by intros [= <-].
  - destruct (body a st line) as [st1|] eqn:Hbody; [|done].
    intros Hloop.
    destruct (pair_key_some (ref_transcript line) (other_transcript line))
      as [key Hkey].
    destruct (body_sets _ _ _ _ _ Hbody Hkey) as (Hs & _).
    specialize (IH _ _ Hloop). set_solver.
Qed.

(** The output is only ever extended. *)
Lemma body_stdout a st line st' :
  body a st line = Some st' → ∃ out, stdout st' = stdout st ++ out.
Proof.
  intros Hbody.
  destruct (body_view a st line) as (st'' & Hbody' & Hview).
  assert (st'' = st') as -> by congruence.
  destruct Hview as [[(_ & _ & _ & ->) _]|[Hfold (key & (_ & _ & Hkey) & _)]].
  { exists []. by rewrite app_nil_r. }
  destruct (folded_effect _ _ _ _ _ Hfold Hkey)
    as (? & ? & ? & _ & [(_ & _ & _ & _ & _ & ->)|(_ & _ & _ & _ & ->)]).
  - by exists [key].
  - exists []. by rewrite app_nil_r.
Qed.

Lemma loop_stdout a lines : ∀ st st',
  loop a st lines = Some st' → ∃ out, stdout st' = stdout st ++ out.
Proof.
  induction lines as [|line lines IH]; intros st st'; simpl.
  - intros [= <-]. exists []. by rewrite app_nil_r.
  - destruct (body a st line) as [st1|] eqn:Hbody; [|done].
    intros Hloop. destruct (body_stdout _ _ _ _ Hbody) as [out1 H1].
    destruct (IH _ _ Hloop) as [out2 H2].
    exists (out1 ++ out2). by rewrite H2, H1, app_assoc.
Qed.


End LoopFacts.

(** * The claims on names, keys and selection *)

Section LoopClaims.

Import Tracker Driver.

(** C7, as the code has it. A read identifier without a newline that ends
    with [__1], [__2], [/1] or [/2] after at least one other character
    loses that one suffix, so identifiers that share such a prefix and
    differ in the suffix only get one base name; an identifier that does
    not end so is returned as it is, and so is an identifier that is the
    suffix alone. *)
Theorem read_name_normalizes :
  (∀ (p : string) d,
     p ≠ "" → no_newline p = true → (d = "1" ∨ d = "2")%char →
     read_name (p +:+ "__" +:+ String d "") = p
     ∧ read_name (p +:+ "/" +:+ String d "") = p)
  ∧ (∀ s : string,
       no_newline s = true →
       (∀ (p : string) d, p ≠ "" → (d = "1" ∨ d = "2")%char →
          s = p +:+ "__" +:+ String d "" ∨ s = p +:+ "/" +:+ String d ""
          → False) →
       read_name s = s)
  ∧ (∀ (p : string),
       p ≠ "" → no_newline p = true →
       read_name (p +:+ "__1") = read_name (p +:+ "__2")
       ∧ read_name (p +:+ "/1") = read_name (p +:+ "/2"))
  ∧ read_name "/1" = "/1" ∧ read_name "/2" = "/2"
  ∧ read_name "__1" = "__1" ∧ read_name "__2" = "__2".
Proof.
  split; [apply read_name_strip|]. split; [apply read_name_keep|].
  split; [|repeat split; reflexivity].
  intros p Hp Hnl.
  destruct (read_name_strip p "1" Hp Hnl) as [H1 H1']; [by left|].
  destruct (read_name_strip p "2" Hp Hnl) as [H2 H2']; [by right|].
  split; [exact (eq_trans H1 (eq_sym H2))|exact (eq_trans H1' (eq_sym H2'))].
Qed.

Lemma read_name_normalizes_witness :
  read_name "HWI-D00688:13:C6F54ANXX:7:2111:15500:46809__1"
    = "HWI-D00688:13:C6F54ANXX:7:2111:15500:46809"
  ∧ read_name "HWI-D00688:13:C6F54ANXX:7:2111:15500:46809/1"
    = "HWI-D00688:13:C6F54ANXX:7:2111:15500:46809".
Proof.
  apply (proj1 read_name_normalizes
           "HWI-D00688:13:C6F54ANXX:7:2111:15500:46809" "1"%char).
  - discriminate.
  - reflexivity.
  - left. reflexivity.
Defined.

(** C7 as stated fails on an identifier that is a suffix and nothing
    else: ["/1"] keeps its suffix instead of giving the empty prefix, and
    ["/1"] and ["/2"], which differ in the suffix only, keep different
    names. *)
Lemma read_name_bare_suffix :
  read_name ("" +:+ "/1") = "/1"
  ∧ String.eqb (read_name ("" +:+ "/1")) "" = false
  ∧ String.eqb (read_name ("" +:+ "/1")) (read_name ("" +:+ "/2")) = false.
Proof. repeat split; reflexivity. Qed.

(** C5. The key is the same for both orders of the two names: the smaller
    name in the order of the strings, [":"], the larger. Two lines that
    differ in the order of the two names only take the loop to the same
    state. *)
Theorem pair_key_symmetric (A B : string) :
  pair_key A B = pair_key B A
  ∧ (∃ lo hi,
       pair_key A B = Some (lo +:+ ":" +:+ hi)
       ∧ String.leb lo hi = true
       ∧ (lo = A ∧ hi = B ∨ lo = B ∧ hi = A))
  ∧ (String.eqb A "*" = false → String.eqb A "=" = false →
     String.eqb B "*" = false → String.eqb B "=" = false →
     ∀ a st r p c,
       body a st (SamLine r A p c B) = body a st (SamLine r B p c A)).
Proof.
  split; [apply pair_key_comm|]. split.
  - rewrite pair_key_ordered. destruct (String.leb A B) eqn:Hle.
    + exists A, B. auto.
    + exists B, A. split; [done|]. split; [|auto].
      destruct (String.leb_total A B); congruence.
  - intros HA1 HA2 HB1 HB2 a st r p c. unfold body. simpl.
    by rewrite HA1, HA2, HB1, HB2, (pair_key_comm A B).
Qed.

Lemma pair_key_symmetric_witness :
  pair_key "c78654_g1_i1" "c100009_g1_i1" = Some "c100009_g1_i1:c78654_g1_i1"
  ∧ pair_key "c100009_g1_i1" "c78654_g1_i1" = Some "c100009_g1_i1:c78654_g1_i1"
  ∧ body (Args 250 2) initial
      (SamLine "r__1" "c78654_g1_i1" 10 "41M" "c100009_g1_i1")
    = body (Args 250 2) initial
        (SamLine "r__1" "c100009_g1_i1" 10 "41M" "c78654_g1_i1").
Proof.
  split; [reflexivity|]. split; [reflexivity|].
  exact (proj2 (proj2 (pair_key_symmetric "c78654_g1_i1" "c100009_g1_i1"))
           eq_refl eq_refl eq_refl eq_refl
           (Args 250 2) initial "r__1" 10 "41M").
Defined.

(** C3. A line that reaches [add_read_coverage] selects its pair exactly
    when the read count returned is at least [min_mate_pair_count] and the
    covered length returned is at least [min_bp_coverage]. With the
    thresholds 2 and 82, the spans (10, 50) and (60, 100) on one pair
    select it on the second line and not on the first; with 83 for the
    covered length they do not select it. *)
Theorem selected_iff_thresholds :
  (∀ a st line key,
     links line key → ¬ blocked st key (read_name (ref_read line)) →
     ∃ pairings' n_reads covered_bp st',
       add_read_coverage (pairings st) key (pos line)
         (pos line + cigar_rlen (cigar line) - 1)
       = Some (pairings', (n_reads, covered_bp))
       ∧ body a st line = Some st'
       ∧ (key ∈ selected_pairings st'
          ↔ min_mate_pair_count a ≤ n_reads
            ∧ min_bp_coverage a ≤ covered_bp)
       ∧ (stdout st' = stdout st ++ [key]
          ↔ min_mate_pair_count a ≤ n_reads
            ∧ min_bp_coverage a ≤ covered_bp))
  ∧ fold_calls ∅ "A:B" [(10, 50); (60, 100)]
    = Some ({["A:B" := [(1, 10, 50); (1, 60, 100)]]}, [(1, 41); (2, 82)])
  ∧ stdout <$> loop (Args 82 2) initial [SamLine "r1" "A" 10 "41M" "B"]
    = Some []
  ∧ stdout <$> loop (Args 82 2) initial
      [SamLine "r1" "A" 10 "41M" "B"; SamLine "r2" "A" 60 "41M" "B"]
    = Some ["A:B"]
  ∧ stdout <$> loop (Args 83 2) initial
      [SamLine "r1" "A" 10 "41M" "B"; SamLine "r2" "A" 60 "41M" "B"]
    = Some [].
Proof.
  split; [|repeat split; vm_compute; reflexivity].
  intros a st line key Hlinks Hnb.
  destruct (body_free_folded a st line key Hlinks Hnb) as (st' & Hbody & Hfold).
  destruct Hlinks as (_ & _ & Hkey).
  destruct (folded_effect _ _ _ _ _ Hfold Hkey)
    as (pairings' & n & bp & Hcall & Heff).
  exists pairings', n, bp, st'. split; [done|]. split; [done|].
  assert (Hsel : key ∉ selected_pairings st) by (intros ?; apply Hnb; by left).
  destruct Heff as [(Hn & Hbp & _ & Hs & _ & Ho)|(Hno & _ & Hs & _ & Ho)].
  - rewrite Hs, Ho. split; (split; [intros _; done|intros _]);
      [apply elem_of_union_l, elem_of_singleton|]; done.
  - rewrite Hs, Ho. split; (split; [|done]).
    + done.
    + intros Heq. apply (f_equal length) in Heq.
      rewrite length_app in Heq. simpl in Heq. lia.
Qed.

Lemma selected_iff_thresholds_witness :
  ∃ pairings' n_reads covered_bp st',
    add_read_coverage {["A:B" := [(1, 10, 50)]]} "A:B" 60 (60 + 41 - 1)
    = Some (pairings', (n_reads, covered_bp))
    ∧ body (Args 82 2)
        (State {["A:B" := [(1, 10, 50)]]} 0 0 ∅ 0 0 1 {["A:B:r1"]} 0 [])
        (SamLine "r2" "A" 60 "41M" "B")
      = Some st'
    ∧ ("A:B" ∈ selected_pairings st' ↔ 2 ≤ n_reads ∧ 82 ≤ covered_bp)
    ∧ (stdout st' = [] ++ ["A:B"] ↔ 2 ≤ n_reads ∧ 82 ≤ covered_bp).
Proof.
  assert (Hlinks : links (SamLine "r2" "A" 60 "41M" "B") "A:B")
    by (repeat split; reflexivity).
  assert (Hfree : ¬ blocked
            (State {["A:B" := [(1, 10, 50)]]} 0 0 ∅ 0 0 1 {["A:B:r1"]} 0 [])
            "A:B" (read_name "r2")).
  { unfold blocked. simpl. intros [H|H].
    - by apply not_elem_of_empty in H.
    - apply elem_of_singleton in H. discriminate H. }
  exact (proj1 selected_iff_thresholds (Args 82 2)
           (State {["A:B" := [(1, 10, 50)]]} 0 0 ∅ 0 0 1 {["A:B:r1"]} 0 [])
           (SamLine "r2" "A" 60 "41M" "B") "A:B" Hlinks Hfree).
Defined.

(** C4. Over every input a key is printed at most once. The line that
    first meets both thresholds prints the key, adds it to the selected
    set and deletes its interval list. A key that is selected stays
    selected; a later line with that key changes neither dictionary nor
    set nor output; the key is not printed again, and no interval list is
    stored for it again. *)
Theorem selected_is_terminal a lines1 lines2 :
  ∃ st1 st2 out,
    loop a initial lines1 = Some st1
    ∧ loop a st1 lines2 = Some st2
    ∧ NoDup (stdout st2)
    ∧ (∀ k, k ∈ stdout st2 ↔ k ∈ selected_pairings st2)
    ∧ stdout st2 = stdout st1 ++ out
    ∧ (∀ k, k ∈ selected_pairings st1 →
         k ∈ stdout st1 ∧ (k ∉ out)
         ∧ k ∈ selected_pairings st2 ∧ pairings st2 !! k = None)
    ∧ (∀ line key,
         pair_key (ref_transcript line) (other_transcript line) = Some key →
         key ∈ selected_pairings st1 →
         ∃ st', body a st1 line = Some st' ∧ discarded st1 st')
    ∧ (∀ line key pairings' n_reads covered_bp,
         links line key →
         ¬ blocked st1 key (read_name (ref_read line)) →
         add_read_coverage (pairings st1) key (pos line)
           (pos line + cigar_rlen (cigar line) - 1)
         = Some (pairings', (n_reads, covered_bp)) →
         min_mate_pair_count a ≤ n_reads →
         min_bp_coverage a ≤ covered_bp →
         ∃ st', body a st1 line = Some st'
                ∧ (key ∉ stdout st1)
                ∧ stdout st' = stdout st1 ++ [key]
                ∧ selected_pairings st' = {[key]} ∪ selected_pairings st1
                ∧ pairings st' = delete key pairings').
Proof.
  destruct (loop_total a lines1 initial) as [st1 Hst1].
  destruct (loop_total a lines2 st1) as [st2 Hst2].
  destruct (loop_stdout _ _ _ _ Hst2) as [out Hout].
  pose proof (loop_consistent _ _ _ _ Hst1 initial_consistent) as Hc1.
  pose proof (loop_consistent _ _ _ _ Hst2 Hc1) as Hc2.
  destruct Hc1 as (_ & Hout1 & _). destruct Hc2 as (Hnd2 & Hout2 & Hnone2).
  exists st1, st2, out. do 5 (split; [done|]). split; [|split].
  - intros k Hk.
    assert (Hk2 : k ∈ selected_pairings st2)
      by (by apply (loop_selected_mono _ _ _ _ Hst2)).
    split; [by apply Hout1|]. split; [|by auto].
    rewrite Hout in Hnd2. apply NoDup_app in Hnd2 as (_ & Hdisj & _).
    by apply Hdisj, Hout1.
  - intros line key Hkey Hsel.
    destruct (body_total a st1 line) as [st' Hbody]. exists st'.
    split; [done|]. eapply body_blocked_discarded; [done..|by left].
  - intros line key pairings' n bp Hlinks Hfree Hcall Hn Hbp.
    destruct (body_free_folded a st1 line key Hlinks Hfree)
      as (st' & Hbody & Hfold).
    destruct Hlinks as (_ & _ & Hkey).
    destruct (folded_effect _ _ _ _ _ Hfold Hkey)
      as (pairings'' & n' & bp' & Hcall' & Heff).
    assert (pairings'' = pairings' ∧ n' = n ∧ bp' = bp) as (-> & -> & ->).
    { rewrite Hcall in Hcall'. by injection Hcall' as <- <- <-. }
    exists st'. split; [done|]. split.
    { intros Hin. apply Hfree. left. by apply Hout1. }
    destruct Heff as [(_ & _ & Hp & Hs & _ & Ho)|(Hno & _)]; [done|].
    destruct Hno. done.
Qed.

(** C8, as the code has it. The call returns for all integers, also for a
    span with [re < rs]: such a span goes through the same insert and
    merge and the totals are the sums over the resulting list. It adds its
    length [re - rs + 1 <= 0] to the covered length when it gets an
    interval of its own (a fresh key, an insert, the append) and adds
    nothing when it is only merged into intervals, which then hold it
    already; for [re = rs - 1], the span of a CIGAR string without a
    reference length, the two are the same. *)
Theorem add_read_coverage_never_fails :
  (∀ (pdict : gmap string (list interval)) key rs re,
     ∃ pdict' l',
       add_read_coverage pdict key rs re
         = Some (pdict', (sum_reads l', sum_bp l'))
       ∧ pdict' !! key = Some l'
       ∧ l' = match pdict !! key with
              | None => [(1, rs, re)]
              | Some l => spec_scan rs re l false
              end
       ∧ (re < rs →
          match pdict !! key with
          | None => sum_bp l' = re - rs + 1 ∧ sum_bp l' ≤ 0
          | Some l =>
              (length l' = S (length l)
               ∧ sum_bp l' = sum_bp l + (re - rs + 1))
              ∨ (length l' = length l ∧ sum_bp l' = sum_bp l)
          end)
       ∧ (re = rs - 1 →
          sum_bp l' = sum_bp (default [] (pdict !! key)) + (re - rs + 1)))
  ∧ cigar_rlen "*" = 0
  ∧ pairings <$> body (Args 250 2) initial (SamLine "r1" "A" 10 "*" "B")
    = Some {["A:B" := [(1, 10, 9)]]}
  ∧ add_read_coverage {["A:B" := [(1, 10, 9)]]} "A:B" 30 29
    = Some ({["A:B" := [(1, 10, 9); (1, 30, 29)]]}, (2, 0))
  ∧ add_read_coverage {["A:B" := [(1, 10, 20)]]} "A:B" 15 12
    = Some ({["A:B" := [(2, 10, 20)]]}, (2, 11)).
Proof.
  split; [|repeat split; vm_compute; reflexivity].
  intros pdict key rs re.
  destruct (pdict !! key) as [l|] eqn:Hl.
  - eexists _, _. rewrite (add_read_coverage_present _ _ _ _ _ Hl).
    split; [done|]. split; [by rewrite lookup_insert_eq|]. split; [done|].
    split; [apply spec_scan_degenerate|].
    intros Hre. simpl.
    destruct (spec_scan_degenerate rs re l false) as [[_ ->]|[_ ->]]; lia.
  - exists (<[key := [(1, rs, re)]]> pdict), [(1, rs, re)].
    rewrite (add_read_coverage_absent _ _ _ _ Hl).
    split; [unfold sum_reads, sum_bp; simpl; do 3 f_equal; lia|].
    split; [by rewrite lookup_insert_eq|]. split; [done|].
    split; intros Hdeg; unfold sum_bp; simpl; lia.
Qed.

(** C8 as stated fails where a span with [re < rs - 1] is merged: the span
    (15, 12) has the length -2, and on the list [(1, 10, 20)] the call
    returns the covered length 11 that the list had, not 9. *)
Lemma degenerate_span_merged_adds_nothing :
  add_read_coverage {["A:B" := [(1, 10, 20)]]} "A:B" 15 12
    = Some ({["A:B" := [(2, 10, 20)]]}, (2, 11))
  ∧ sum_bp [(1, 10, 20)] = 11
  ∧ 12 - 15 + 1 = -2
  ∧ (11 =? sum_bp [(1, 10, 20)] + (12 - 15 + 1)) = false.
Proof. repeat split; vm_compute; reflexivity. Qed.

End LoopClaims.

(** * Runs on sample input *)

Section Samples.

Import Tracker Driver.

(** Two reads of one mate pair and a third read on the pair A, B: the
    second line adds nothing, the third adds its span. *)
Example dedup_run :
  (λ st, (pairings st !! "A:B", stdout st, n_reads_already_used st)) <$>
    loop (Args 250 2) initial
      [SamLine "r__1" "A" 10 "41M" "B";
       SamLine "r__2" "B" 100 "41M" "A";
       SamLine "q__1" "A" 60 "41M" "B"]
  = Some (Some [(1, 10, 50); (1, 60, 100)], [], 1).
Proof. vm_compute. reflexivity. Qed.

(** A pair that is selected is printed once, however many lines follow. *)
Example one_shot_run :
  (λ st, (pairings st !! "A:B", stdout st, n_lines_ignored st)) <$>
    loop (Args 82 2) initial
      [SamLine "r1" "A" 10 "41M" "B";
       SamLine "r2" "A" 60 "41M" "B";
       SamLine "r3" "B" 200 "300M" "A";
       SamLine "r4" "A" 600 "300M" "B";
       SamLine "r5" "A" 900 "300M" "B"]
  = Some (None, ["A:B"], 3).
Proof. vm_compute. reflexivity. Qed.

(** Lines whose mate is unmapped or on the same transcript reach neither
    the keys nor the tracker. *)
Example mate_excluded_run :
  (λ st, (pairings st, single_read_pairings st, same_read_pairings st)) <$>
    loop (Args 250 2) initial
      [SamLine "r1" "A" 10 "41M" "*"; SamLine "r2" "A" 60 "41M" "="]
  = Some (∅, 1, 1).
Proof. vm_compute. reflexivity. Qed.

End Samples.

(** * The shape of the interval lists *)

Section ShapeFacts.

Import Tracker Shape.

Implicit Types (l : list interval) (rs re lb : Z) (done : bool).

(** A key that is missing is treated as a key with an empty list. *)
Lemma add_read_coverage_default (pdict : gmap string (list interval))
    key rs re :
  add_read_coverage pdict key rs re
  = Some (<[key := spec_scan rs re (default [] (pdict !! key)) false]> pdict,
          (sum_reads (spec_scan rs re (default [] (pdict !! key)) false),
           sum_bp (spec_scan rs re (default [] (pdict !! key)) false))).
Proof.
  destruct (pdict !! key) as [l|] eqn:Hl; simpl.
  - by apply add_read_coverage_present.
  - rewrite add_read_coverage_absent by done.
    unfold sum_reads, sum_bp. simpl. do 3 f_equal; lia.
Qed.

Lemma sorted_from_weaken l : ∀ lb lb',
  lb' ≤ lb → sorted_from lb l → sorted_from lb' l.
Proof.
  destruct l as [|[[n istart] iend] l]; intros lb lb' Hle; [done|].
  simpl. intros (? & ? & ? & ?). repeat split; (done || lia).
Qed.

Lemma spec_scan_sorted rs re l : ∀ done lb,
  rs ≤ re → lb ≤ rs → sorted_from lb l →
  sorted_from lb (spec_scan rs re l done).
Proof.
  induction l as [|[[n istart] iend] l IH]; intros done lb Hspan Hlb Hl.
  - destruct done; simpl; [done|]. repeat split; (done || lia).
  - destruct Hl as (Hlo & Hwf & Hn & Hl). cbn [spec_scan].
    destruct (Z.ltb_spec re istart) as [Hb|Hb].
    { simpl. repeat split; (done || lia). }
    destruct (Z.ltb_spec iend rs) as [Ha|Ha]; cbn [sorted_from].
    + repeat split; try (done || lia). apply IH; (done || lia).
    + repeat split; try (done || lia).
      apply IH; [done|lia|]. eapply sorted_from_weaken; [|done]. lia.
Qed.

Lemma spec_scan_separated rs re l : ∀ lb,
  rs ≤ re → lb < rs → separated_from lb l →
  Forall (fun il : interval => re < il.1.2 ∨ il.2 < rs) l →
  separated_from lb (spec_scan rs re l false)
  ∧ ∃ l1 l2, l = l1 ++ l2
             ∧ spec_scan rs re l false = l1 ++ (1, rs, re) :: l2.
Proof.
  induction l as [|[[n istart] iend] l IH]; intros lb Hspan Hlb Hl Hfree.
  - simpl. split; [repeat split; (done || lia)|]. by exists [], [].
  - destruct Hl as (Hlo & Hwf & Hl).
    apply Forall_cons in Hfree as [Hhere Hfree]. simpl in Hhere.
    cbn [spec_scan]. destruct (Z.ltb_spec re istart) as [Hb|Hb].
    { split; [simpl; repeat split; (done || lia)|].
      by exists [], ((n, istart, iend) :: l). }
    destruct (Z.ltb_spec iend rs) as [Ha|Ha]; [|lia].
    destruct (IH iend Hspan Ha Hl Hfree) as (Hsep & l1 & l2 & -> & Hres).
    split; [simpl; repeat split; (done || lia)|].
    exists ((n, istart, iend) :: l1), l2. split; [done|]. by rewrite Hres.
Qed.

Lemma sum_reads_app l1 l2 : sum_reads (l1 ++ l2) = sum_reads l1 + sum_reads l2.
Proof.
  unfold sum_reads. induction l1 as [|il l1 IH]; simpl; [done|].
  rewrite IH. lia.
Qed.

Lemma sum_bp_app l1 l2 : sum_bp (l1 ++ l2) = sum_bp l1 + sum_bp l2.
Proof.
  unfold sum_bp. induction l1 as [|il l1 IH]; simpl; [done|].
  rewrite IH. lia.
Qed.

(** Every call counts the read once at least, and once per interval of
    the list at most. *)
Lemma spec_scan_reads rs re l : ∀ done,
  sum_reads l + (if done then 0 else 1)
    ≤ sum_reads (spec_scan rs re l done)
  ∧ sum_reads (spec_scan rs re l done)
    ≤ sum_reads l
      + (if done then Z.of_nat (length l)
         else Z.max 1 (Z.of_nat (length l))).
Proof.
  induction l as [|[[n istart] iend] l IH]; intros done.
  - destruct done; unfold sum_reads; simpl; lia.
  - cbn [spec_scan]. destruct (re <? istart).
    { unfold sum_reads. destruct done; simpl length; simpl; lia. }
    destruct (iend <? rs).
    + specialize (IH done). unfold sum_reads in *.
      destruct done; simpl length; simpl in *; lia.
    + specialize (IH true). unfold sum_reads in *.
      destruct done; simpl length; simpl in *; lia.
Qed.

Lemma spec_scan_length rs re l : ∀ done,
  (length l ≤ length (spec_scan rs re l done) ≤ S (length l))%nat
  ∧ (done = false → spec_scan rs re l done ≠ []).
Proof.
  induction l as [|[[n istart] iend] l IH]; intros done.
  - destruct done; simpl; split; (done || lia).
  - cbn [spec_scan]. destruct (re <? istart); [simpl; split; (done || lia)|].
    destruct (iend <? rs).
    + destruct (IH done) as [? _]. simpl. split; (done || lia).
    + destruct (IH true) as [? _]. simpl. split; (done || lia).
Qed.

(** The positions covered after a call are those covered before and those
    of the span. *)
Lemma spec_scan_covers rs re l x : ∀ done,
  rs ≤ re → Forall (fun il : interval => il.1.2 ≤ il.2) l →
  (covers l x → covers (spec_scan rs re l done) x)
  ∧ (covers (spec_scan rs re l done) x → covers l x ∨ rs ≤ x ≤ re)
  ∧ (done = false → rs ≤ x ≤ re → covers (spec_scan rs re l done) x).
Proof.
  unfold covers.
  induction l as [|[[n istart] iend] l IH]; intros done Hspan Hwf.
  - destruct done; simpl.
    + repeat split; [done| |done]. intros H. by apply Exists_nil in H.
    + repeat split.
      * intros H. by apply Exists_nil in H.
      * intros H. apply Exists_cons in H as [H|H]; [by right|].
        by apply Exists_nil in H.
      * intros _ Hx. by apply Exists_cons_hd.
  - apply Forall_cons in Hwf as [Hhere Hwf]. simpl in Hhere.
    cbn [spec_scan]. destruct (Z.ltb_spec re istart) as [Hb|Hb].
    { repeat split.
      - intros H. by apply Exists_cons_tl.
      - intros H. apply Exists_cons in H as [H|H]; [by right|by left].
      - intros _ Hx. by apply Exists_cons_hd. }
    destruct (Z.ltb_spec iend rs) as [Ha|Ha].
    + destruct (IH done Hspan Hwf) as (Hkeep & Hback & Hnew). repeat split.
      * intros H. apply Exists_cons in H as [H|H];
          [by apply Exists_cons_hd|by apply Exists_cons_tl, Hkeep].
      * intros H. apply Exists_cons in H as [H|H].
        -- left. by apply Exists_cons_hd.
        -- destruct (Hback H) as [?|?]; [left|by right].
           by apply Exists_cons_tl.
      * intros Hd Hx. by apply Exists_cons_tl, Hnew.
    + destruct (IH true Hspan Hwf) as (Hkeep & Hback & _). repeat split.
      * intros H. apply Exists_cons in H as [H|H].
        -- apply Exists_cons_hd. simpl in *. lia.
        -- by apply Exists_cons_tl, Hkeep.
      * intros H. apply Exists_cons in H as [H|H].
        -- simpl in H. destruct (decide (istart ≤ x ≤ iend)) as [Hin|Hout].
           ++ left. by apply Exists_cons_hd.
           ++ right. lia.
        -- destruct (Hback H) as [?|?]; [left|by right].
           by apply Exists_cons_tl.
      * intros _ Hx. apply Exists_cons_hd. simpl. lia.
Qed.

End ShapeFacts.

(** * More on the tracker *)

Section TrackerExtras.

Import Tracker Shape.

(** X1. A call on a key that is missing does what a call on the same key
    bound to an empty list does: the same dictionary and the same result. *)
Theorem missing_key_is_empty_list
    (pdict : gmap string (list interval)) key rs re :
  pdict !! key = None →
  add_read_coverage pdict key rs re
  = add_read_coverage (<[key := []]> pdict) key rs re.
Proof.
  intros Hl. rewrite !add_read_coverage_default.
  rewrite Hl, lookup_insert_eq, insert_insert_eq. done.
Qed.

Lemma missing_key_is_empty_list_witness :
  add_read_coverage ∅ "A:B" 10 50
  = add_read_coverage (<["A:B" := []]> ∅) "A:B" 10 50.
Proof. exact (missing_key_is_empty_list ∅ "A:B" 10 50 eq_refl). Defined.

(** X2. A call with [rs <= re] keeps the list of the key sorted by start:
    when every interval has [istart <= iend] and a read count of 1 at
    least and the starts ascend from [lb <= rs], the same holds for the
    list the call leaves. *)
Theorem add_read_coverage_keeps_sorted
    (pdict : gmap string (list interval)) key rs re lb :
  rs ≤ re → lb ≤ rs →
  sorted_from lb (default [] (pdict !! key)) →
  ∃ pdict' l' rc,
    add_read_coverage pdict key rs re = Some (pdict', rc)
    ∧ pdict' !! key = Some l'
    ∧ sorted_from lb l'.
Proof.
  intros Hspan Hlb Hl. rewrite add_read_coverage_default.
  eexists _, _, _. split; [done|]. split; [by rewrite lookup_insert_eq|].
  by apply spec_scan_sorted.
Qed.

Lemma add_read_coverage_keeps_sorted_witness :
  ∃ pdict' l' rc,
    add_read_coverage {["A:B" := [(1, 10, 20); (1, 30, 40)]]} "A:B" 15 25
      = Some (pdict', rc)
    ∧ pdict' !! "A:B" = Some l'
    ∧ sorted_from 5 l'.
Proof.
  assert (H1 : 15 ≤ 25) by lia.
  assert (H2 : 5 ≤ 15) by lia.
  assert (H3 : sorted_from 5 [(1, 10, 20); (1, 30, 40)])
    by (simpl; lia).
  exact (add_read_coverage_keeps_sorted
           {["A:B" := [(1, 10, 20); (1, 30, 40)]]} "A:B" 15 25 5 H1 H2 H3).
Defined.

(** X3. On a list of intervals that do not overlap, a span with
    [rs <= re] that touches none of them becomes an interval of its own at
    its place in the order: the other intervals stay as they are, the
    list still has no overlap, the read count grows by one and the
    covered length by the length of the span. *)
Theorem disjoint_span_gets_own_interval
    (pdict : gmap string (list interval)) key l rs re lb :
  pdict !! key = Some l →
  rs ≤ re → lb < rs → separated_from lb l →
  Forall (fun il : interval => re < il.1.2 ∨ il.2 < rs) l →
  ∃ l1 l2,
    l = l1 ++ l2
    ∧ add_read_coverage pdict key rs re
      = Some (<[key := l1 ++ (1, rs, re) :: l2]> pdict,
              (sum_reads l + 1, sum_bp l + (re - rs + 1)))
    ∧ separated_from lb (l1 ++ (1, rs, re) :: l2).
Proof.
  intros Hl Hspan Hlb Hsep Hfree.
  destruct (spec_scan_separated rs re l lb Hspan Hlb Hsep Hfree)
    as (Hsep' & l1 & l2 & -> & Hres).
  exists l1, l2. split; [done|].
  rewrite (add_read_coverage_present _ _ _ _ _ Hl), Hres.
  split; [|by rewrite <- Hres].
  do 3 f_equal.
  - rewrite !sum_reads_app. unfold sum_reads. simpl. lia.
  - rewrite !sum_bp_app. unfold sum_bp. simpl. lia.
Qed.

Lemma disjoint_span_gets_own_interval_witness :
  ∃ l1 l2,
    [(1, 10, 20); (3, 50, 60)] = l1 ++ l2
    ∧ add_read_coverage {["A:B" := [(1, 10, 20); (3, 50, 60)]]} "A:B" 30 40
      = Some (<["A:B" := l1 ++ (1, 30, 40) :: l2]>
                {["A:B" := [(1, 10, 20); (3, 50, 60)]]},
              (sum_reads [(1, 10, 20); (3, 50, 60)] + 1,
               sum_bp [(1, 10, 20); (3, 50, 60)] + (40 - 30 + 1)))
    ∧ separated_from 0 (l1 ++ (1, 30, 40) :: l2).
Proof.
  assert (H1 : 30 ≤ 40) by lia.
  assert (H2 : 0 < 30) by lia.
  assert (H3 : separated_from 0 [(1, 10, 20); (3, 50, 60)]) by (simpl; lia).
  assert (H4 : Forall (fun il : interval => 40 < il.1.2 ∨ il.2 < 30)
                 [(1, 10, 20); (3, 50, 60)]).
  { repeat constructor; simpl; lia. }
  exact (disjoint_span_gets_own_interval
           {["A:B" := [(1, 10, 20); (3, 50, 60)]]} "A:B"
           [(1, 10, 20); (3, 50, 60)] 30 40 0 eq_refl H1 H2 H3 H4).
Defined.

(** X4. A call on a key with a list adds one to the read count at least
    and one per interval of the list at most, removes no interval and
    adds one interval at most. *)
Theorem read_count_and_length_bounds
    (pdict : gmap string (list interval)) key l rs re :
  pdict !! key = Some l →
  ∃ pdict' l' n_reads covered_bp,
    add_read_coverage pdict key rs re = Some (pdict', (n_reads, covered_bp))
    ∧ pdict' !! key = Some l'
    ∧ sum_reads l + 1 ≤ n_reads
    ∧ n_reads ≤ sum_reads l + Z.max 1 (Z.of_nat (length l))
    ∧ (length l ≤ length l' ≤ S (length l))%nat.
Proof.
  intros Hl. rewrite (add_read_coverage_present _ _ _ _ _ Hl).
  eexists _, _, _, _. split; [done|]. split; [by rewrite lookup_insert_eq|].
  destruct (spec_scan_reads rs re l false) as [Hlo Hhi].
  destruct (spec_scan_length rs re l false) as [Hlen _].
  repeat split; (done || lia).
Qed.

Lemma read_count_and_length_bounds_witness :
  ∃ pdict' l' n_reads covered_bp,
    add_read_coverage {["A:B" := [(1, 10, 20); (1, 30, 40)]]} "A:B" 15 35
      = Some (pdict', (n_reads, covered_bp))
    ∧ pdict' !! "A:B" = Some l'
    ∧ sum_reads [(1, 10, 20); (1, 30, 40)] + 1 ≤ n_reads
    ∧ n_reads
      ≤ sum_reads [(1, 10, 20); (1, 30, 40)]
        + Z.max 1 (Z.of_nat (length [(1, 10, 20); (1, 30, 40)]))
    ∧ (length [(1, 10, 20); (1, 30, 40)] ≤ length l'
       ≤ S (length [(1, 10, 20); (1, 30, 40)]))%nat.
Proof.
  exact (read_count_and_length_bounds
           {["A:B" := [(1, 10, 20); (1, 30, 40)]]} "A:B"
           [(1, 10, 20); (1, 30, 40)] 15 35 eq_refl).
Defined.

(** X5. When every interval of the list has [istart <= iend] and the span
    has [rs <= re], the positions that lie in some interval after the call
    are the positions that did before and the positions of the span: no
    covered position is lost and none is invented, whatever the sums
    say. *)
Theorem covered_positions_are_union
    (pdict : gmap string (list interval)) key rs re :
  rs ≤ re →
  Forall (fun il : interval => il.1.2 ≤ il.2) (default [] (pdict !! key)) →
  ∃ pdict' l' rc,
    add_read_coverage pdict key rs re = Some (pdict', rc)
    ∧ pdict' !! key = Some l'
    ∧ ∀ x, covers l' x ↔ covers (default [] (pdict !! key)) x ∨ rs ≤ x ≤ re.
Proof.
  intros Hspan Hwf. rewrite add_read_coverage_default.
  eexists _, _, _. split; [done|]. split; [by rewrite lookup_insert_eq|].
  intros x.
  destruct (spec_scan_covers rs re _ x false Hspan Hwf)
    as (Hkeep & Hback & Hnew).
  split; [done|]. intros [?|?]; auto.
Qed.

Lemma covered_positions_are_union_witness :
  ∃ pdict' l' rc,
    add_read_coverage {["A:B" := [(1, 10, 20); (1, 30, 40)]]} "A:B" 15 35
      = Some (pdict', rc)
    ∧ pdict' !! "A:B" = Some l'
    ∧ ∀ x, covers l' x
           ↔ covers [(1, 10, 20); (1, 30, 40)] x ∨ 15 ≤ x ≤ 35.
Proof.
  assert (H1 : 15 ≤ 35) by lia.
  assert (H2 : Forall (fun il : interval => il.1.2 ≤ il.2)
                 [(1, 10, 20); (1, 30, 40)]).
  { repeat constructor; simpl; lia. }
  exact (covered_positions_are_union
           {["A:B" := [(1, 10, 20); (1, 30, 40)]]} "A:B" 15 35 H1 H2).
Defined.

(** X6. Calls on two different keys do not see each other: in either
    order they return the same results and leave the same dictionary, and
    a call leaves every other key as it was. *)
Theorem calls_on_two_keys_commute
    (pdict : gmap string (list interval)) key1 key2 rs1 re1 rs2 re2 :
  key1 ≠ key2 →
  ∃ pdict1 pdict2 pdict' rc1 rc2,
    add_read_coverage pdict key1 rs1 re1 = Some (pdict1, rc1)
    ∧ add_read_coverage pdict1 key2 rs2 re2 = Some (pdict', rc2)
    ∧ add_read_coverage pdict key2 rs2 re2 = Some (pdict2, rc2)
    ∧ add_read_coverage pdict2 key1 rs1 re1 = Some (pdict', rc1)
    ∧ pdict1 !! key2 = pdict !! key2
    ∧ pdict2 !! key1 = pdict !! key1.
Proof.
  intros Hne.
  set (l1 := spec_scan rs1 re1 (default [] (pdict !! key1)) false).
  set (l2 := spec_scan rs2 re2 (default [] (pdict !! key2)) false).
  exists (<[key1 := l1]> pdict), (<[key2 := l2]> pdict),
    (<[key2 := l2]> (<[key1 := l1]> pdict)),
    (sum_reads l1, sum_bp l1), (sum_reads l2, sum_bp l2).
  assert (H12 : (<[key1 := l1]> pdict) !! key2 = pdict !! key2)
    by (by rewrite lookup_insert_ne).
  assert (H21 : (<[key2 := l2]> pdict) !! key1 = pdict !! key1)
    by (by rewrite lookup_insert_ne).
  split; [apply add_read_coverage_default|].
  split; [by rewrite add_read_coverage_default, H12|].
  split; [apply add_read_coverage_default|].
  split; [|done].
  rewrite add_read_coverage_default, H21. fold l1.
  by rewrite (insert_insert_ne pdict key1 key2).
Qed.

Lemma calls_on_two_keys_commute_witness :
  ∃ pdict1 pdict2 pdict' rc1 rc2,
    add_read_coverage {["A:B" := [(1, 10, 20)]]} "A:B" 15 25
      = Some (pdict1, rc1)
    ∧ add_read_coverage pdict1 "A:C" 1 5 = Some (pdict', rc2)
    ∧ add_read_coverage {["A:B" := [(1, 10, 20)]]} "A:C" 1 5
      = Some (pdict2, rc2)
    ∧ add_read_coverage pdict2 "A:B" 15 25 = Some (pdict', rc1)
    ∧ pdict1 !! "A:C" = ({["A:B" := [(1, 10, 20)]]} : gmap _ _) !! "A:C"
    ∧ pdict2 !! "A:B" = ({["A:B" := [(1, 10, 20)]]} : gmap _ _) !! "A:B".
Proof.
  assert (Hne : "A:B" ≠ "A:C") by discriminate.
  exact (calls_on_two_keys_commute
           {["A:B" := [(1, 10, 20)]]} "A:B" "A:C" 15 25 1 5 Hne).
Defined.

End TrackerExtras.

(** * More on names, keys and CIGAR strings *)

Section NameExtras.

Import Tracker Driver Lines.

Lemma string_app_nil_r (s : string) : s +:+ "" = s.
Proof.
  induction s as [|c s IH]; [done|]. by rewrite string_app_cons, IH.
Qed.

Lemma string_app_nil_l (s : string) : "" +:+ s = s.
Proof. done. Qed.

(** Two strings cut at their first colon are equal only piece by piece. *)
Lemma colon_split (a : string) : ∀ a' b b' : string,
  colon_free a = true → colon_free a' = true →
  a +:+ ":" +:+ b = a' +:+ ":" +:+ b' → a = a' ∧ b = b'.
Proof.
  induction a as [|c a IH]; intros [|c' a'] b b' Ha Ha' Heq;
    rewrite ?string_app_cons, ?string_app_nil_l in Heq.
  - by injection Heq as ->.
  - injection Heq as <- _. done.
  - injection Heq as -> _. done.
  - injection Heq as -> Heq.
    cbn in Ha, Ha'. apply andb_true_iff in Ha as [_ Ha].
    apply andb_true_iff in Ha' as [_ Ha'].
    rewrite <- (string_app_nil_l b), <- (string_app_nil_l b'),
      <- !string_app_cons in Heq.
    destruct (IH a' b b' Ha Ha' Heq) as [-> ->]. done.
Qed.

Lemma pair_key_inj (A B A' B' : string) :
  colon_free A = true → colon_free B = true →
  colon_free A' = true → colon_free B' = true →
  pair_key A B = pair_key A' B' →
  A = A' ∧ B = B' ∨ A = B' ∧ B = A'.
Proof.
  intros HA HB HA' HB'. rewrite !pair_key_ordered.
  destruct (String.leb A B), (String.leb A' B'); intros [= Heq];
    apply colon_split in Heq as [-> ->]; auto.
Qed.

Lemma read_key_pair_inj (A B A' B' k k' n n' : string) :
  colon_free A = true → colon_free B = true →
  colon_free A' = true → colon_free B' = true →
  pair_key A B = Some k → pair_key A' B' = Some k' →
  read_key k n = read_key k' n' →
  k = k' ∧ n = n'.
Proof.
  intros HA HB HA' HB'. rewrite !pair_key_ordered. unfold read_key.
  intros [= <-] [= <-].
  destruct (String.leb A B), (String.leb A' B');
    rewrite !string_app_assoc; intros Heq;
    apply colon_split in Heq as [-> Heq]; try done;
    apply colon_split in Heq as [-> ->]; done.
Qed.

Lemma digit_value_char d : 0 ≤ d ≤ 9 → digit_value (digit_char d) = Some d.
Proof.
  intros Hd.
  assert (d = 0 ∨ d = 1 ∨ d = 2 ∨ d = 3 ∨ d = 4 ∨ d = 5 ∨ d = 6 ∨ d = 7
          ∨ d = 8 ∨ d = 9) as Hcases by lia.
  repeat (destruct Hcases as [->|Hcases]; [reflexivity|]). by subst.
Qed.

(** Reading the digits of a length leaves its value in [run]. *)
Lemma cigar_scan_digits ds : ∀ (rest : string) run rlen,
  Forall (fun d => 0 ≤ d ≤ 9) ds →
  cigar_scan (digits_string ds +:+ rest) run rlen
  = cigar_scan rest
      (match ds with
       | [] => run
       | _ :: _ =>
           Some (fold_left (fun acc d => 10 * acc + d) ds (default 0 run))
       end) rlen.
Proof.
  induction ds as [|d ds IH]; intros rest run rlen Hds; [done|].
  apply Forall_cons in Hds as [Hd Hds].
  unfold digits_string. cbn [map string_of_list_ascii].
  rewrite string_app_cons. cbn [cigar_scan].
  rewrite (digit_value_char d Hd).
  fold (digits_string ds). rewrite IH by done.
  destruct ds; reflexivity.
Qed.

Lemma cigar_scan_ops ops : ∀ rlen,
  Forall (fun o : list Z * ascii =>
            Forall (fun d => 0 ≤ d ≤ 9) o.1 ∧ digit_value o.2 = None) ops →
  cigar_scan (cigar_string ops) None rlen = rlen + ref_length ops.
Proof.
  induction ops as [|[ds op] ops IH]; intros rlen Hops.
  - simpl. lia.
  - apply Forall_cons in Hops as [[Hds Hop] Hops]. simpl in Hds, Hop.
    cbn [cigar_string ref_length]. rewrite cigar_scan_digits by done.
    cbn [cigar_scan]. rewrite Hop.
    destruct ds as [|d ds].
    + rewrite IH by done. unfold digits_value. simpl.
      destruct (ref_op op); lia.
    + destruct (ref_op op); rewrite IH by done;
        unfold digits_value; simpl; lia.
Qed.

(** X7. On an identifier without a newline the base name is the
    identifier itself or the identifier without a final [__1], [__2],
    [/1] or [/2], and it is empty only for the empty identifier. *)
Theorem read_name_is_prefix (s : string) :
  no_newline s = true →
  (∃ t, s = read_name s +:+ t ∧ In t [""; "__1"; "__2"; "/1"; "/2"])
  ∧ (read_name s = "" → s = "").
Proof.
  intros Hnl. unfold read_name.
  assert (Hcase : ∀ sep g,
            match_group sep s = Some g →
            g ≠ "" ∧ ∃ d, s = g +:+ sep +:+ String d "" ∧ (d = "1" ∨ d = "2")%char).
  { intros sep g Hm.
    apply match_group_sound in Hm as (Hg & _ & t & -> & Ht).
    apply mate_suffix_inv in Ht as (d & nl & -> & Hd & Hend).
    split; [done|]. exists d. rewrite !no_newline_app in Hnl.
    destruct Hend as [->| ->]; [done|]. exfalso.
    apply andb_true_iff in Hnl as [_ Hnl].
    apply andb_true_iff in Hnl as [_ Hnl].
    destruct Hd as [->| ->]; vm_compute in Hnl; discriminate. }
  destruct (match_group "__" s) as [g|] eqn:H1.
  { destruct (Hcase _ _ H1) as (Hg & d & Hs & Hd). split; [|done].
    exists ("__" +:+ String d ""). split; [done|].
    destruct Hd as [->| ->]; vm_compute; auto 6. }
  destruct (match_group "/" s) as [g|] eqn:H2.
  { destruct (Hcase _ _ H2) as (Hg & d & Hs & Hd). split; [|done].
    exists ("/" +:+ String d ""). split; [done|].
    destruct Hd as [->| ->]; vm_compute; auto 6. }
  split; [|done]. exists "". split; [by rewrite string_app_nil_r|].
  simpl. auto.
Qed.

Lemma read_name_is_prefix_witness :
  (∃ t, "HWI:7:2111/2" = read_name "HWI:7:2111/2" +:+ t
        ∧ In t [""; "__1"; "__2"; "/1"; "/2"])
  ∧ (read_name "HWI:7:2111/2" = "" → "HWI:7:2111/2" = "").
Proof. exact (read_name_is_prefix "HWI:7:2111/2" eq_refl). Defined.

(** X8. For transcript names without a colon the key tells the pair: two
    pairs of names get the same key only when they are the same two
    names, in either order. *)
Theorem pair_key_injective (A B A' B' : string) :
  colon_free A = true → colon_free B = true →
  colon_free A' = true → colon_free B' = true →
  pair_key A B = pair_key A' B' →
  A = A' ∧ B = B' ∨ A = B' ∧ B = A'.
Proof. apply pair_key_inj. Qed.

Lemma pair_key_injective_witness :
  "c2" = "c1" ∧ "c1" = "c2" ∨ "c2" = "c2" ∧ "c1" = "c1".
Proof.
  exact (pair_key_injective "c2" "c1" "c1" "c2"
           eq_refl eq_refl eq_refl eq_refl eq_refl).
Defined.

(** X9. For transcript names without a colon the key under which a read
    is recorded as used tells both the pair and the base name of the
    read, whatever characters the read name holds: two of them are equal
    only for the same pair key and the same base name. *)
Theorem read_key_injective (A B A' B' k k' n n' : string) :
  colon_free A = true → colon_free B = true →
  colon_free A' = true → colon_free B' = true →
  pair_key A B = Some k → pair_key A' B' = Some k' →
  read_key k n = read_key k' n' →
  k = k' ∧ n = n'.
Proof. apply read_key_pair_inj. Qed.

Lemma read_key_injective_witness :
  "c1:c2" = "c1:c2" ∧ "HWI:7:2111" = "HWI:7:2111".
Proof.
  exact (read_key_injective "c2" "c1" "c1" "c2" "c1:c2" "c1:c2"
           "HWI:7:2111" "HWI:7:2111"
           eq_refl eq_refl eq_refl eq_refl eq_refl eq_refl eq_refl).
Defined.

(** X10. On a CIGAR string written as operations, each the ASCII decimal
    digits of a length, 4300 of them at most, and an ASCII character that
    is no digit, the reference length is the sum of the lengths of the
    operations M, =, X, D and N; the other operations add nothing. *)
Theorem cigar_rlen_sums_reference_ops (ops : list (list Z * ascii)) :
  Forall (fun o : list Z * ascii =>
            Forall (fun d => 0 ≤ d ≤ 9) o.1
            ∧ (length o.1 ≤ 4300)%nat
            ∧ (N_of_ascii o.2 < 128)%N
            ∧ digit_value o.2 = None) ops →
  cigar_rlen (cigar_string ops) = ref_length ops.
Proof.
  intros Hops. unfold cigar_rlen. rewrite cigar_scan_ops; [done|].
  eapply Forall_impl; [exact Hops|]. intros o (? & _ & _ & ?). done.
Qed.

Lemma cigar_rlen_sums_reference_ops_witness :
  cigar_rlen (cigar_string [([1; 0], "M"); ([2], "I"); ([5], "D");
                            ([3], "S"); ([4], "N")]%char)
  = ref_length [([1; 0], "M"); ([2], "I"); ([5], "D");
                ([3], "S"); ([4], "N")]%char.
Proof.
  assert (H : Forall (fun o : list Z * ascii =>
                Forall (fun d => 0 ≤ d ≤ 9) o.1
                ∧ (length o.1 ≤ 4300)%nat
                ∧ (N_of_ascii o.2 < 128)%N
                ∧ digit_value o.2 = None)
                [([1; 0], "M"); ([2], "I"); ([5], "D");
                 ([3], "S"); ([4], "N")]%char).
  { repeat constructor; simpl; lia. }
  exact (cigar_rlen_sums_reference_ops _ H).
Defined.

End NameExtras.

(** * More on the loop *)

Section LoopExtras.

Import Tracker Driver Shape Lines.

Implicit Types (a : args) (st : state) (line : sam_line) (key : string).

(** Each line moves one of the counters that the summary prints, or adds
    one read to [reads_used]. *)
Lemma body_counters a st line st' :
  body a st line = Some st' →
  n_lines st' = n_lines st + 1
  ∧ single_read_pairings st' + same_read_pairings st' + n_lines_ignored st'
    + n_reads_already_used st' + n_selected_pairings st'
    + Z.of_nat (size (reads_used st'))
    = single_read_pairings st + same_read_pairings st + n_lines_ignored st
      + n_reads_already_used st + n_selected_pairings st
      + Z.of_nat (size (reads_used st)) + 1
  ∧ n_selected_pairings st' - Z.of_nat (length (stdout st'))
    = n_selected_pairings st - Z.of_nat (length (stdout st))
  ∧ (selected_pairings st = list_to_set (stdout st) →
     selected_pairings st' = list_to_set (stdout st')).
Proof.
  unfold body.
  destruct (String.eqb (other_transcript line) "*");
    [intros [= <-]; simpl; repeat split; (done || lia)|].
  destruct (String.eqb (other_transcript line) "=");
    [intros [= <-]; simpl; repeat split; (done || lia)|].
  destruct (pair_key _ _) as [key|]; [|done].
  destruct (decide (key ∈ selected_pairings st)) as [Hsel|Hsel];
    [intros [= <-]; simpl; repeat split; (done || lia)|].
  destruct (decide (_ ∈ reads_used st)) as [Hused|Hused];
    [intros [= <-]; simpl; repeat split; (done || lia)|].
  destruct (add_read_coverage _ _ _ _) as [[pairings' [nr bp]]|]; [|done].
  intros [= <-]. unfold select.
  destruct (_ && _); simpl.
  - repeat split; try lia.
    + rewrite length_app. simpl. lia.
    + intros ->. rewrite list_to_set_app_L. simpl.
      rewrite (right_id_L ∅ (∪)), (comm_L (∪)). done.
  - repeat split; try done.
    rewrite size_union by (by apply disjoint_singleton_l).
    rewrite size_singleton. lia.
Qed.

(** The state after a line depends on the counters only in its counters. *)
Lemma body_core a st1 st2 line :
  core st1 = core st2 →
  core <$> body a st1 line = core <$> body a st2 line.
Proof.
  destruct st1, st2. unfold core. simpl. intros [= -> -> -> ->].
  unfold body. simpl.
  destruct (String.eqb (other_transcript line) "*"); [done|].
  destruct (String.eqb (other_transcript line) "="); [done|].
  destruct (pair_key _ _) as [key|]; [|done].
  destruct (decide (key ∈ _)) as [Hsel|Hsel]; [done|].
  destruct (decide (_ ∈ _)) as [Hused|Hused]; [done|].
  destruct (add_read_coverage _ _ _ _) as [[pairings' [nr bp]]|]; [|done].
  unfold select. simpl. by destruct (_ && _).
Qed.

Lemma body_mate_skipped a st line :
  mate_ok line = false → core <$> body a st line = Some (core st).
Proof.
  unfold mate_ok, body. intros H.
  destruct (String.eqb (other_transcript line) "*"); [done|].
  destruct (String.eqb (other_transcript line) "="); [done|]. done.
Qed.

Lemma loop_filter_core a lines : ∀ st1 st2,
  core st1 = core st2 →
  core <$> loop a st1 (List.filter mate_ok lines) = core <$> loop a st2 lines.
Proof.
  induction lines as [|line lines IH]; intros st1 st2 Hcore.
  - simpl. by rewrite Hcore.
  - cbn [List.filter loop]. destruct (mate_ok line) eqn:Hok.
    + cbn [loop]. pose proof (body_core a st1 st2 line Hcore) as Hb.
      destruct (body a st1 line) as [st1'|], (body a st2 line) as [st2'|];
        simpl in Hb; try done.
      apply IH. congruence.
    + pose proof (body_mate_skipped a st2 line Hok) as Hb.
      destruct (body a st2 line) as [st2'|]; [|done].
      apply IH. simpl in Hb. congruence.
Qed.

(** A line changes the interval list of its own key only, and selects its
    own key only. *)
Lemma body_frame a st line st' k :
  body a st line = Some st' →
  pair_key (ref_transcript line) (other_transcript line) ≠ Some k →
  pairings st' !! k = pairings st !! k
  ∧ (k ∈ selected_pairings st' ↔ k ∈ selected_pairings st).
Proof.
  intros Hbody Hk.
  destruct (body_view a st line) as (st'' & Hbody' & Hview).
  assert (st'' = st') as -> by congruence.
  destruct Hview as [[(-> & -> & _) _]|[Hfold (key & (_ & _ & Hkey) & _)]];
    [done|].
  assert (Hne : k ≠ key) by congruence.
  destruct (folded_effect _ _ _ _ _ Hfold Hkey)
    as (pairings' & n & bp & Hcall & Heff).
  destruct (add_read_coverage_some (pairings st) key (pos line)
              (pos line + cigar_rlen (cigar line) - 1))
    as (pairings'' & l' & Hcall' & _ & Hother).
  assert (pairings'' = pairings') as -> by congruence.
  destruct Heff as [(_ & _ & -> & -> & _)|(_ & -> & -> & _)].
  - rewrite lookup_delete_ne, Hother by done. split; [done|].
    rewrite elem_of_union, elem_of_singleton. tauto.
  - by rewrite Hother.
Qed.

(** Whatever the state holds came from a line that was read. *)
Lemma body_provenance a st line st' (S : sam_line → Prop) :
  body a st line = Some st' →
  ((∀ k, k ∈ selected_pairings st ∨ is_Some (pairings st !! k) →
      ∃ x, S x ∧ links x k)
   ∧ ∀ r, r ∈ reads_used st →
      ∃ x key, S x ∧ links x key ∧ r = read_key key (read_name (ref_read x))) →
  (∀ k, k ∈ selected_pairings st' ∨ is_Some (pairings st' !! k) →
     ∃ x, (S x ∨ x = line) ∧ links x k)
  ∧ ∀ r, r ∈ reads_used st' →
     ∃ x key, (S x ∨ x = line) ∧ links x key
              ∧ r = read_key key (read_name (ref_read x)).
Proof.
  intros Hbody [Hkeys Hreads].
  assert (Hkeys' : ∀ k, k ∈ selected_pairings st ∨ is_Some (pairings st !! k) →
                     ∃ x, (S x ∨ x = line) ∧ links x k).
  { intros k Hk. destruct (Hkeys k Hk) as (x & ? & ?). exists x. auto. }
  assert (Hreads' : ∀ r, r ∈ reads_used st →
                     ∃ x key, (S x ∨ x = line) ∧ links x key
                              ∧ r = read_key key (read_name (ref_read x))).
  { intros r Hr. destruct (Hreads r Hr) as (x & key & ? & ? & ?).
    exists x, key. auto. }
  destruct (body_view a st line) as (st'' & Hbody' & Hview).
  assert (st'' = st') as -> by congruence.
  destruct Hview as [[(-> & -> & -> & _) _]|[Hfold (key & Hlinks & _)]];
    [done|].
  pose proof Hlinks as (_ & _ & Hkey).
  split.
  - intros k Hk. destruct (decide (k = key)) as [->|Hne].
    { exists line. auto. }
    apply Hkeys'.
    assert (Hk' : pair_key (ref_transcript line) (other_transcript line)
                  ≠ Some k) by congruence.
    destruct (body_frame _ _ _ _ _ Hbody Hk') as [Hp Hsel].
    rewrite Hp in Hk. tauto.
  - intros r Hr.
    destruct (body_sets _ _ _ _ _ Hbody Hkey) as (_ & _ & _ & Hsub).
    apply Hsub, elem_of_union in Hr as [Hr|Hr]; [|by apply Hreads'].
    apply elem_of_singleton in Hr as ->. exists line, key. auto.
Qed.

Lemma loop_provenance a lines : ∀ st st' (S : sam_line → Prop),
  loop a st lines = Some st' →
  ((∀ k, k ∈ selected_pairings st ∨ is_Some (pairings st !! k) →
      ∃ x, S x ∧ links x k)
   ∧ ∀ r, r ∈ reads_used st →
      ∃ x key, S x ∧ links x key ∧ r = read_key key (read_name (ref_read x))) →
  (∀ k, k ∈ selected_pairings st' ∨ is_Some (pairings st' !! k) →
     ∃ x, (S x ∨ x ∈ lines) ∧ links x k)
  ∧ ∀ r, r ∈ reads_used st' →
     ∃ x key, (S x ∨ x ∈ lines) ∧ links x key
              ∧ r = read_key key (read_name (ref_read x)).
Proof.
  induction lines as [|line lines IH]; intros st st' S; simpl.
  - intros [= <-] [Hkeys Hreads]. split.
    + intros k Hk. destruct (Hkeys k Hk) as (x & ? & ?). exists x. auto.
    + intros r Hr. destruct (Hreads r Hr) as (x & key & ? & ? & ?).
      exists x, key. auto.
  - destruct (body a st line) as [st1|] eqn:Hbody; [|done].
    intros Hloop Hinv.
    pose proof (body_provenance _ _ _ _ S Hbody Hinv) as Hinv1.
    destruct (IH _ _ _ Hloop Hinv1) as [Hkeys Hreads]. split.
    + intros k Hk. destruct (Hkeys k Hk) as (x & Hx & ?). exists x.
      split; [|done]. rewrite elem_of_cons. tauto.
    + intros r Hr. destruct (Hreads r Hr) as (x & key & Hx & ? & ?).
      exists x, key. split; [|done]. rewrite elem_of_cons. tauto.
Qed.

(** The lists of a run stay sorted when every line has a reference
    length of 1 at least. *)
Lemma body_sorted a st line st' :
  body a st line = Some st' →
  1 ≤ cigar_rlen (cigar line) →
  (∀ k l, pairings st !! k = Some l → l ≠ [] ∧ ∃ lb, sorted_from lb l) →
  ∀ k l, pairings st' !! k = Some l → l ≠ [] ∧ ∃ lb, sorted_from lb l.
Proof.
  intros Hbody Hlen Hinv k l.
  destruct (body_view a st line) as (st'' & Hbody' & Hview).
  assert (st'' = st') as -> by congruence.
  destruct Hview as [[(-> & _) _]|[Hfold (key & (_ & _ & Hkey) & _)]];
    [apply Hinv|].
  destruct (folded_effect _ _ _ _ _ Hfold Hkey)
    as (pairings' & n & bp & Hcall & Heff).
  rewrite add_read_coverage_default in Hcall. injection Hcall as <- _ _.
  assert (Hnew : ∀ l',
            (<[key := spec_scan (pos line)
                        (pos line + cigar_rlen (cigar line) - 1)
                        (default [] (pairings st !! key)) false]>
               (pairings st)) !! k = Some l' →
            l' ≠ [] ∧ ∃ lb, sorted_from lb l').
  { intros l'. destruct (decide (k = key)) as [->|Hne].
    - rewrite lookup_insert_eq. intros [= <-].
      split; [by apply spec_scan_length|].
      destruct (pairings st !! key) as [l0|] eqn:Hl0; simpl.
      + destruct (Hinv _ _ Hl0) as (_ & lb & Hsorted).
        exists (Z.min lb (pos line)).
        apply spec_scan_sorted; [lia..|].
        eapply sorted_from_weaken; [|done]. lia.
      + exists (pos line). simpl. lia.
    - rewrite lookup_insert_ne by done. apply Hinv. }
  destruct Heff as [(_ & _ & -> & _)|(_ & -> & _)]; [|apply Hnew].
  destruct (decide (k = key)) as [->|Hne].
  - by rewrite lookup_delete_eq.
  - rewrite lookup_delete_ne by done. apply Hnew.
Qed.

Lemma loop_counters a lines : ∀ st st',
  loop a st lines = Some st' →
  n_lines st' = n_lines st + Z.of_nat (length lines)
  ∧ single_read_pairings st' + same_read_pairings st' + n_lines_ignored st'
    + n_reads_already_used st' + n_selected_pairings st'
    + Z.of_nat (size (reads_used st'))
    = single_read_pairings st + same_read_pairings st + n_lines_ignored st
      + n_reads_already_used st + n_selected_pairings st
      + Z.of_nat (size (reads_used st)) + Z.of_nat (length lines)
  ∧ n_selected_pairings st' - Z.of_nat (length (stdout st'))
    = n_selected_pairings st - Z.of_nat (length (stdout st))
  ∧ (selected_pairings st = list_to_set (stdout st) →
     selected_pairings st' = list_to_set (stdout st')).
Proof.
  induction lines as [|line lines IH]; intros st st'; simpl length.
  - intros [= <-]. repeat split; (done || lia).
  - cbn [loop]. destruct (body a st line) as [st1|] eqn:Hbody; [|done].
    intros Hloop.
    destruct (body_counters _ _ _ _ Hbody) as (H1 & H2 & H3 & H4).
    destruct (IH _ _ Hloop) as (H1' & H2' & H3' & H4').
    repeat split; [lia..|auto].
Qed.

Lemma loop_sorted a lines : ∀ st st',
  loop a st lines = Some st' →
  Forall (fun line => 1 ≤ cigar_rlen (cigar line)) lines →
  (∀ k l, pairings st !! k = Some l → l ≠ [] ∧ ∃ lb, sorted_from lb l) →
  ∀ k l, pairings st' !! k = Some l → l ≠ [] ∧ ∃ lb, sorted_from lb l.
Proof.
  induction lines as [|line lines IH]; intros st st'; simpl.
  - by intros [= <-].
  - destruct (body a st line) as [st1|] eqn:Hbody; [|done].
    intros Hloop [Hlen Hlens]%Forall_cons Hinv.
    eapply IH; [done..|]. by eapply body_sorted.
Qed.

Lemma loop_frame a lines k : ∀ st st',
  loop a st lines = Some st' →
  Forall (fun line =>
            pair_key (ref_transcript line) (other_transcript line) ≠ Some k)
    lines →
  pairings st' !! k = pairings st !! k
  ∧ (k ∈ selected_pairings st' ↔ k ∈ selected_pairings st).
Proof.
  induction lines as [|line lines IH]; intros st st'; simpl.
  - by intros [= <-].
  - destruct (body a st line) as [st1|] eqn:Hbody; [|done].
    intros Hloop [Hk Hks]%Forall_cons.
    destruct (body_frame _ _ _ _ _ Hbody Hk) as [Hp Hs].
    destruct (IH _ _ Hloop Hks) as [Hp' Hs'].
    split; [congruence|tauto].
Qed.

(** X11. The numbers of the summary add up: after any input, [n_lines] is
    the number of lines read, the count of pairings added is the number
    of keys printed and the size of the selected set, and every line read
    is counted once, as a line with a mate that is unmapped or on the same
    transcript, as a line ignored for a selected pair, as a read already
    used, as a pairing added, or as an entry of [reads_used]. *)
Theorem summary_counters_add_up a lines :
  ∃ st,
    loop a initial lines = Some st
    ∧ n_lines st = Z.of_nat (length lines)
    ∧ n_selected_pairings st = Z.of_nat (length (stdout st))
    ∧ size (selected_pairings st) = length (stdout st)
    ∧ n_lines st
      = single_read_pairings st + same_read_pairings st + n_lines_ignored st
        + n_reads_already_used st + n_selected_pairings st
        + Z.of_nat (size (reads_used st)).
Proof.
  destruct (loop_total a lines initial) as [st Hst]. exists st.
  destruct (loop_counters _ _ _ _ Hst) as (H1 & H2 & H3 & H4).
  destruct (loop_consistent _ _ _ _ Hst initial_consistent) as (Hnd & _).
  change (reads_used initial) with (∅ : gset string) in H2.
  rewrite size_empty in H2. simpl in H1, H2, H3.
  repeat split; [done|lia|lia| |lia].
  rewrite H4 by done. by apply size_list_to_set.
Qed.

(** X12. When every line has a reference length of 1 at least, every
    interval list that a run holds is not empty and sorted by start, with
    [istart <= iend] and a read count of 1 at least in every interval. *)
Theorem lists_stay_sorted a lines :
  Forall (fun line => 1 ≤ cigar_rlen (cigar line)) lines →
  ∃ st,
    loop a initial lines = Some st
    ∧ ∀ k l, pairings st !! k = Some l → l ≠ [] ∧ ∃ lb, sorted_from lb l.
Proof.
  intros Hlens. destruct (loop_total a lines initial) as [st Hst].
  exists st. split; [done|].
  eapply loop_sorted; [done..|]. intros k l. simpl.
  by rewrite lookup_empty.
Qed.

Lemma lists_stay_sorted_witness :
  ∃ st,
    loop (Args 250 3) initial
      [SamLine "r1" "A" 30 "10M" "B"; SamLine "r2" "B" 10 "5M2I5M" "A";
       SamLine "r3" "A" 35 "10M" "B"] = Some st
    ∧ ∀ k l, pairings st !! k = Some l → l ≠ [] ∧ ∃ lb, sorted_from lb l.
Proof.
  assert (H : Forall (fun line => 1 ≤ cigar_rlen (cigar line))
                [SamLine "r1" "A" 30 "10M" "B";
                 SamLine "r2" "B" 10 "5M2I5M" "A";
                 SamLine "r3" "A" 35 "10M" "B"]).
  { repeat constructor; vm_compute; discriminate. }
  exact (lists_stay_sorted (Args 250 3) _ H).
Defined.

(** X13. Lines whose mate is unmapped or on the same transcript change
    nothing but counters: without them the run ends with the same
    dictionary, the same sets and the same output. *)
Theorem unmapped_mates_are_invisible a st lines :
  core <$> loop a st (List.filter mate_ok lines) = core <$> loop a st lines.
Proof. by apply loop_filter_core. Qed.

(** X14. A run holds nothing that the input did not bring: every key that
    is printed, selected or has an interval list is the key of a line of
    the input whose mate is on another transcript, and every entry of
    [reads_used] is the key and the base name of such a line. *)
Theorem state_comes_from_input a lines :
  ∃ st,
    loop a initial lines = Some st
    ∧ (∀ k, k ∈ stdout st ∨ k ∈ selected_pairings st
            ∨ is_Some (pairings st !! k) →
         ∃ x, x ∈ lines ∧ links x k)
    ∧ (∀ r, r ∈ reads_used st →
         ∃ x key, x ∈ lines ∧ links x key
                  ∧ r = read_key key (read_name (ref_read x))).
Proof.
  destruct (loop_total a lines initial) as [st Hst]. exists st.
  split; [done|].
  destruct (loop_consistent _ _ _ _ Hst initial_consistent) as (_ & Hout & _).
  destruct (loop_provenance a lines initial st (fun _ => False) Hst)
    as [Hkeys Hreads].
  { simpl. split.
    - intros k [Hk|Hk]; [by apply not_elem_of_empty in Hk|].
      rewrite lookup_empty in Hk. by destruct Hk.
    - intros r Hr. by apply not_elem_of_empty in Hr. }
  split.
  - intros k Hk.
    destruct (Hkeys k) as (x & [[]|Hx] & Hl); [|by exists x].
    rewrite Hout in Hk. tauto.
  - intros r Hr.
    destruct (Hreads r Hr) as (x & key & [[]|Hx] & Hl & ->).
    by exists x, key.
Qed.

(** X15. With transcript names without a colon, a read is met in
    [reads_used] only when an earlier line of the input had the same pair
    key and the same base name: no line is dropped as the other end of a
    read that was never seen. *)
Theorem duplicates_are_real a pre e key :
  Forall (fun line =>
            colon_free (ref_transcript line) = true
            ∧ colon_free (other_transcript line) = true) (e :: pre) →
  links e key →
  ∃ st,
    loop a initial pre = Some st
    ∧ (read_key key (read_name (ref_read e)) ∈ reads_used st →
       ∃ e', e' ∈ pre ∧ links e' key
             ∧ read_name (ref_read e') = read_name (ref_read e)).
Proof.
  intros [[He1 He2] Hpre]%Forall_cons (_ & _ & Hkey).
  destruct (loop_total a pre initial) as [st Hst]. exists st.
  split; [done|]. intros Hr.
  destruct (loop_provenance a pre initial st (fun _ => False) Hst)
    as [_ Hreads].
  { simpl. split.
    - intros k [Hk|Hk]; [by apply not_elem_of_empty in Hk|].
      rewrite lookup_empty in Hk. by destruct Hk.
    - intros r Hr'. by apply not_elem_of_empty in Hr'. }
  destruct (Hreads _ Hr) as (x & key' & [[]|Hx] & Hl & Heq).
  pose proof Hl as (_ & _ & Hkey').
  rewrite Forall_forall in Hpre. destruct (Hpre x Hx) as [Hx1 Hx2].
  destruct (read_key_pair_inj _ _ _ _ _ _ _ _ He1 He2 Hx1 Hx2 Hkey Hkey' Heq)
    as [<- Hn].
  by exists x.
Qed.

Lemma duplicates_are_real_witness :
  ∃ st,
    loop (Args 250 2) initial [SamLine "HWI:7__1" "c2" 10 "41M" "c1"]
      = Some st
    ∧ (read_key "c1:c2" (read_name "HWI:7__2") ∈ reads_used st →
       ∃ e', e' ∈ [SamLine "HWI:7__1" "c2" 10 "41M" "c1"]
             ∧ links e' "c1:c2"
             ∧ read_name (ref_read e') = read_name "HWI:7__2").
Proof.
  assert (H1 : Forall (fun line =>
                 colon_free (ref_transcript line) = true
                 ∧ colon_free (other_transcript line) = true)
                 [SamLine "HWI:7__2" "c1" 100 "41M" "c2";
                  SamLine "HWI:7__1" "c2" 10 "41M" "c1"]).
  { repeat constructor. }
  assert (H2 : links (SamLine "HWI:7__2" "c1" 100 "41M" "c2") "c1:c2")
    by (repeat split; reflexivity).
  exact (duplicates_are_real (Args 250 2) _ _ _ H1 H2).
Defined.

(** X16. Lines of other pairs leave a pair alone: over input in which no
    line has the key [k], the interval list of [k] and whether [k] is
    selected are at the end what they were at the start. *)
Theorem other_pairs_leave_key_alone a st lines k :
  Forall (fun line =>
            pair_key (ref_transcript line) (other_transcript line) ≠ Some k)
    lines →
  ∃ st',
    loop a st lines = Some st'
    ∧ pairings st' !! k = pairings st !! k
    ∧ (k ∈ selected_pairings st' ↔ k ∈ selected_pairings st).
Proof.
  intros Hks. destruct (loop_total a lines st) as [st' Hst'].
  exists st'. split; [done|]. by eapply loop_frame.
Qed.

Lemma other_pairs_leave_key_alone_witness :
  ∃ st',
    loop (Args 250 2)
      (State {["A:B" := [(1, 10, 50)]]} 0 0 ∅ 0 0 1 {["A:B:r1"]} 0 [])
      [SamLine "r1" "A" 10 "41M" "C"; SamLine "r2" "C" 60 "41M" "B"]
      = Some st'
    ∧ pairings st' !! "A:B" = Some [(1, 10, 50)]
    ∧ ("A:B" ∈ selected_pairings st' ↔ "A:B" ∈ (∅ : gset string)).
Proof.
  assert (H : Forall (fun line =>
                pair_key (ref_transcript line) (other_transcript line)
                ≠ Some "A:B")
                [SamLine "r1" "A" 10 "41M" "C";
                 SamLine "r2" "C" 60 "41M" "B"]).
  { repeat constructor; vm_compute; discriminate. }
  exact (other_pairs_leave_key_alone (Args 250 2)
           (State {["A:B" := [(1, 10, 50)]]} 0 0 ∅ 0 0 1 {["A:B:r1"]} 0 [])
           _ "A:B" H).
Defined.

End LoopExtras.

(** * Lines of text *)

Section LineExtras.

Import Tracker Driver Lines.

Lemma split_tab_cons (line : string) :
  ∃ col cols, split_tab line = col :: cols.
Proof.
  destruct line as [|c rest]; simpl; [eauto|].
  destruct (Ascii.eqb c tab); [eauto|].
  destruct (split_tab rest); eauto.
Qed.

Lemma split_tab_join (line : string) : join_tab (split_tab line) = line.
Proof.
  induction line as [|c rest IH]; [done|]. cbn [split_tab].
  destruct (split_tab_cons rest) as (col & cols & Hrest).
  rewrite Hrest in *. rewrite <- IH.
  destruct (Ascii.eqb_spec c tab) as [->|Hc]; by destruct cols.
Qed.

Lemma split_tab_length (line : string) :
  length (split_tab line) = S (count_tabs line).
Proof.
  induction line as [|c rest IH]; [done|]. cbn [split_tab count_tabs].
  destruct (split_tab_cons rest) as (col & cols & Hrest).
  rewrite Hrest in *. destruct (Ascii.eqb c tab); simpl in *; lia.
Qed.

Lemma split_tab_fields (line : string) :
  Forall (fun col => count_tabs col = 0%nat) (split_tab line).
Proof.
  induction line as [|c rest IH]; [by repeat constructor|].
  cbn [split_tab]. destruct (split_tab_cons rest) as (col & cols & Hrest).
  rewrite Hrest in *. apply Forall_cons in IH as [Hcol Hcols].
  destruct (Ascii.eqb c tab) eqn:Hc.
  - constructor; [done|]. by constructor.
  - constructor; [|done]. cbn [count_tabs]. by rewrite Hc.
Qed.

(** On a line that is no header and whose columns are there, the body on
    the text is the body on the columns. *)
Lemma raw_body_decoded int a st (raw : string) line :
  raw ≠ "" → header raw = false → decode int raw = Some line →
  raw_body int a st raw = body a st line.
Proof.
  intros Hraw Hhead Hdec. destruct raw as [|c0 rest]; [done|].
  unfold header in Hhead. unfold raw_body. rewrite Hhead.
  unfold decode in Hdec.
  destruct (split_tab (String c0 rest) !! 0%nat) as [c_read|]; [|done].
  destruct (split_tab (String c0 rest) !! 2%nat) as [c_ref|]; [|done].
  destruct (split_tab (String c0 rest) !! 3%nat) as [c_pos|]; [|done].
  destruct (split_tab (String c0 rest) !! 5%nat) as [c_cigar|]; [|done].
  destruct (split_tab (String c0 rest) !! 6%nat) as [c_other|]; [|done].
  destruct (int c_pos) as [rstart|]; [|done].
  injection Hdec as <-. reflexivity.
Qed.

Lemma raw_body_header int a st (raw : string) :
  header raw = true → raw_body int a st raw = Some st.
Proof.
  destruct raw as [|c0 rest]; [done|]. unfold header, raw_body.
  by intros ->.
Qed.

(** X17. Splitting a line at its tabs loses nothing: the pieces joined
    with tabs give the line back, there is one piece more than there are
    tabs, and no piece holds a tab. *)
Theorem split_tab_round_trip (line : string) :
  join_tab (split_tab line) = line
  ∧ length (split_tab line) = S (count_tabs line)
  ∧ Forall (fun col => count_tabs col = 0%nat) (split_tab line).
Proof.
  split; [apply split_tab_join|].
  split; [apply split_tab_length|apply split_tab_fields].
Qed.

(** X18. On input in which no line is empty and every line that is no
    header has its seven columns and a position that [int] reads, the
    loop over the text is the loop over the columns of the lines that
    are no headers. *)
Theorem raw_loop_is_loop int a (raws : list string) : ∀ st,
  Forall (fun raw : string =>
            raw ≠ "" ∧ (header raw = false → is_Some (decode int raw)))
    raws →
  raw_loop int a st raws
  = loop a st
      (omap (decode int) (List.filter (fun raw => negb (header raw)) raws)).
Proof.
  induction raws as [|raw raws IH]; intros st Hraws; [done|].
  apply Forall_cons in Hraws as [[Hraw Hdec] Hraws].
  cbn [raw_loop List.filter]. destruct (header raw) eqn:Hhead; cbn [negb].
  - rewrite raw_body_header by done. by apply IH.
  - destruct (Hdec eq_refl) as [line Hline].
    cbn [omap list_omap]. rewrite Hline. cbn [loop].
    rewrite (raw_body_decoded int a st raw line) by done.
    destruct (body a st line); [by apply IH|done].
Qed.

Lemma raw_loop_is_loop_witness :
  raw_loop (fun _ => Some 10) (Args 250 2) initial
    ["@HD" +:+ String tab "VN:1.0";
     "r__1" +:+ String tab ("0" +:+ String tab ("A" +:+ String tab
       ("10" +:+ String tab ("60" +:+ String tab ("41M" +:+ String tab
         ("B" +:+ String tab "10"))))))]
  = loop (Args 250 2) initial
      (omap (decode (fun _ => Some 10))
         (List.filter (fun raw => negb (header raw))
            ["@HD" +:+ String tab "VN:1.0";
             "r__1" +:+ String tab ("0" +:+ String tab ("A" +:+ String tab
               ("10" +:+ String tab ("60" +:+ String tab ("41M" +:+ String tab
                 ("B" +:+ String tab "10"))))))])).
Proof.
  apply raw_loop_is_loop.
  repeat constructor; try discriminate; intros _; vm_compute; eauto.
Defined.

(** X19. A line that is no header and has fewer than six tabs, so fewer
    than seven columns, stops the run with an index out of range,
    whatever the state. *)
Theorem short_line_raises int a st (raw : string) :
  raw ≠ "" → header raw = false → (count_tabs raw < 6)%nat →
  raw_body int a st raw = None.
Proof.
  intros Hraw Hhead Htabs. destruct raw as [|c0 rest]; [done|].
  unfold header in Hhead. unfold raw_body. rewrite Hhead.
  assert (Hsix : split_tab (String c0 rest) !! 6%nat = None).
  { apply lookup_ge_None. rewrite split_tab_length. lia. }
  rewrite Hsix.
  destruct (split_tab (String c0 rest) !! 0%nat); [|done].
  by destruct (split_tab (String c0 rest) !! 2%nat).
Qed.

Lemma short_line_raises_witness :
  raw_body (fun _ => Some 10) (Args 250 2) initial
    ("r__1" +:+ String tab ("0" +:+ String tab "A"))
  = None.
Proof.
  apply short_line_raises; [discriminate|reflexivity|vm_compute; lia].
Defined.

(** X20. The position is read late: a line with seven columns whose
    position [int] does not read stops the run, unless the line is
    skipped before, for a mate that is unmapped or on the same transcript
    or for a pair that is selected. *)
Theorem bad_position_raises_late int a st (raw : string) c_ref c_pos c_other key :
  raw ≠ "" → header raw = false →
  split_tab raw !! 2%nat = Some c_ref →
  split_tab raw !! 3%nat = Some c_pos →
  split_tab raw !! 6%nat = Some c_other →
  pair_key c_ref c_other = Some key →
  int c_pos = None →
  (is_Some (raw_body int a st raw)
   ↔ c_other = "*" ∨ c_other = "=" ∨ key ∈ selected_pairings st).
Proof.
  intros Hraw Hhead H2 H3 H6 Hkey Hint. destruct raw as [|c0 rest]; [done|].
  destruct (split_tab_cons (String c0 rest)) as (col & cols & Hcols).
  assert (H0 : split_tab (String c0 rest) !! 0%nat = Some col)
    by (by rewrite Hcols).
  unfold header in Hhead. unfold raw_body.
  rewrite Hhead, H0, H2, H3, H6, Hkey.
  destruct (String.eqb_spec c_other "*") as [->|Hstar];
    [split; [intros _; by left|intros _; by eexists]|].
  destruct (String.eqb_spec c_other "=") as [->|Hsame];
    [split; [intros _; right; by left|intros _; by eexists]|].
  destruct (decide (key ∈ selected_pairings st)) as [Hsel|Hsel];
    [split; [intros _; right; by right|intros _; by eexists]|].
  rewrite Hint.
  assert (Hno : ¬ (c_other = "*" ∨ c_other = "=" ∨ key ∈ selected_pairings st))
    by tauto.
  destruct (split_tab (String c0 rest) !! 5%nat);
    (split; [intros [? [=]]|intros ?; by destruct Hno]).
Qed.

Lemma bad_position_raises_late_witness :
  is_Some (raw_body (fun _ => None) (Args 250 2) initial
    ("r__1" +:+ String tab ("0" +:+ String tab ("A" +:+ String tab
       ("x" +:+ String tab ("60" +:+ String tab ("41M" +:+ String tab
         "*")))))))
  ↔ "*" = "*" ∨ "*" = "=" ∨ "*:A" ∈ selected_pairings initial.
Proof.
  apply (bad_position_raises_late (fun _ => None) (Args 250 2) initial
           _ "A" "x" "*" "*:A");
    (discriminate || reflexivity).
Defined.

(** X21. Header lines are not seen: a run over the input without the lines
    that start with [@] ends as the run over all of the input, in the
    same state or with the same exception. *)
Theorem headers_are_invisible int a (raws : list string) : ∀ st,
  raw_loop int a st (List.filter (fun raw => negb (header raw)) raws)
  = raw_loop int a st raws.
Proof.
  induction raws as [|raw raws IH]; intros st; [done|].
  cbn [raw_loop List.filter]. destruct (header raw) eqn:Hhead; cbn [negb].
  - rewrite raw_body_header by done. apply IH.
  - cbn [raw_loop]. destruct (raw_body int a st raw); [apply IH|done].
Qed.

End LineExtras.

(** * Reads of one mate pair *)

Section DedupClaim.

Import Tracker Driver Shape Contribution.

Implicit Types (a : args) (st : state) (line : sam_line) (key : string).






End DedupClaim.
